(** * Supervaizer core: lifecycle, method registry, job dispatch, cases

    A shallow embedding of the Python sources
      - [supervaizer/case.py]       ([CaseNodeUpdate], [Case])
      - [supervaizer/agent.py]      ([AgentMethodsModel], [Agent])
    Python objects that are mutated in place live in an explicit store;
    exceptions are values of [exn]; every method is a computation in a
    small state-and-exception monad, so that what a method has already
    written when it raises stays visible afterwards, as in Python.

    Part I holds the embedding, Part II the theorems. *)

From Stdlib Require Import ZArith Floats.PrimFloat Ascii.
From stdpp Require Import gmap strings list.

Open Scope Z_scope.
Open Scope string_scope.

(* ===================================================================== *)
(** * Part I: the embedding *)
(* ===================================================================== *)

(* ===================================================================== *)
(** * Lifecycle: statuses, events and the transition table *)
(* ===================================================================== *)

Module Lifecycle.

(** [EntityStatus], as imported from [supervaizer.lifecycle] by
    [case.py] and [agent.py]. *)
Inductive EntityStatus : Set :=
| STOPPED | IN_PROGRESS | AWAITING | COMPLETED | FAILED | CANCELLED
| CANCELLING.

(** [EntityEvents], as used by [Case.start], [Case.resume] and
    [Case.close]. *)
Inductive EntityEvents : Set :=
| START_WORK | INPUT_REQUESTED | INPUT_RECEIVED | SUCCESSFULLY_DONE
| FAILED_EVENT | CANCEL_REQUESTED | CANCELLED_EVENT.

#[export] Instance EntityStatus_eq_dec : EqDecision EntityStatus.
Proof. solve_decision. Defined.

#[export] Instance EntityEvents_eq_dec : EqDecision EntityEvents.
Proof. solve_decision. Defined.

(** Modelled from the spec: [supervaizer/lifecycle.py] is not among the
    sources; this is the transition table of section 4.1, row by row. *)
Definition transitions : list (EntityStatus * EntityEvents * EntityStatus) :=
  [ (STOPPED,     START_WORK,        IN_PROGRESS);
    (IN_PROGRESS, INPUT_REQUESTED,   AWAITING);
    (AWAITING,    INPUT_RECEIVED,    IN_PROGRESS);
    (IN_PROGRESS, SUCCESSFULLY_DONE, COMPLETED);
    (IN_PROGRESS, FAILED_EVENT,      FAILED);
    (IN_PROGRESS, CANCEL_REQUESTED,  CANCELLING);
    (CANCELLING,  CANCELLED_EVENT,   CANCELLED) ].

(** Modelled from the spec: the first row of the table for [(st, ev)],
    if any. *)
Fixpoint lookup_transition (tbl : list (EntityStatus * EntityEvents * EntityStatus))
    (st : EntityStatus) (ev : EntityEvents) : option EntityStatus :=
  match tbl with
  | [] => None
  | (st', ev', target) :: rest =>
      if decide (st' = st /\ ev' = ev) then Some target
      else lookup_transition rest st ev
  end.

(** Modelled from the spec: "COMPLETED, FAILED, CANCELLED are terminal". *)
Definition is_terminal (st : EntityStatus) : bool :=
  match st with
  | COMPLETED | FAILED | CANCELLED => true
  | _ => false
  end.

(** The seven rows of section 4.1, one constructor each. *)
Inductive table_row : EntityStatus -> EntityEvents -> EntityStatus -> Prop :=
| row_start    : table_row STOPPED START_WORK IN_PROGRESS
| row_request  : table_row IN_PROGRESS INPUT_REQUESTED AWAITING
| row_received : table_row AWAITING INPUT_RECEIVED IN_PROGRESS
| row_done     : table_row IN_PROGRESS SUCCESSFULLY_DONE COMPLETED
| row_failed   : table_row IN_PROGRESS FAILED_EVENT FAILED
| row_cancel   : table_row IN_PROGRESS CANCEL_REQUESTED CANCELLING
| row_stopped  : table_row CANCELLING CANCELLED_EVENT CANCELLED.

End Lifecycle.
Export Lifecycle.

(* ===================================================================== *)
(** * Exceptions and the state-and-exception monad *)
(* ===================================================================== *)

(** The Python exceptions (instances of [Exception]) the modelled code
    raises or lets through.  [ValidationError] is pydantic's: it wraps the
    [ValueError] a field validator raised, for the field [loc].
    [MethodError] stands for whatever other exception class user code
    raises from a dispatched method body. *)
Inductive exn : Type :=
| TransitionError (st : EntityStatus) (ev : EntityEvents)
| ValueError (msg : string)
| ValidationError (loc msg : string)
| NotImplementedError (msg : string)
| TypeError (msg : string)
| KeyError (key : string)
| ImportError (msg : string)
| AttributeError (msg : string)
| MethodError (cls msg : string).

Inductive result (A : Type) : Type :=
| Ok (a : A)
| Raise (e : exn).
Arguments Ok {A} a.
Arguments Raise {A} e.

(** A computation over a mutable world [S]: it yields a value or raises,
    and in both cases leaves a world behind. *)
Definition M (S A : Type) : Type := S -> result A * S.

Definition ret {S A} (a : A) : M S A := fun s => (Ok a, s).

Definition bind {S A B} (m : M S A) (k : A -> M S B) : M S B :=
  fun s => match m s with
           | (Ok a, s') => k a s'
           | (Raise e, s') => (Raise e, s')
           end.

Definition raise {S A} (e : exn) : M S A := fun s => (Raise e, s).

(** A result that does not look at the world. *)
Definition lift {S A} (r : result A) : M S A := fun s => (r, s).

Definition get {S} : M S S := fun s => (Ok s, s).

Definition modify {S} (f : S -> S) : M S unit := fun s => (Ok tt, f s).

(** [try: ... except Exception as e: handler(e)]. *)
Definition try_except {S A} (body : M S A) (handler : exn -> M S A) : M S A :=
  fun s => match body s with
           | (Ok a, s') => (Ok a, s')
           | (Raise e, s') => handler e s'
           end.

Declare Scope py_scope.
Delimit Scope py_scope with py.
Notation "x <~ m ; k" := (bind m (fun x => k))
  (at level 20, m at level 100, k at level 200, only parsing) : py_scope.
Notation "'exec' m ; k" := (bind m (fun _ => k))
  (at level 10, m at level 100, k at level 200, only parsing) : py_scope.
Open Scope py_scope.

(* ===================================================================== *)
(** * Python values, truth values and the log *)
(* ===================================================================== *)

Unset Elimination Schemes.
(** The values a [Dict[str, Any]] of this code base holds (they are sent
    as JSON). *)
Inductive pyobj : Type :=
| PyNone
| PyBool (b : bool)
| PyInt (z : Z)
| PyFloat (f : float)
| PyStr (s : string)
| PyList (items : list pyobj)
| PyDict (items : list (string * pyobj)).
Set Elimination Schemes.

Definition pydict : Type := list (string * pyobj).

(** [bool(x)] for a float: every float but [0.0] and [-0.0] is true
    (a NaN is true). *)
Definition float_truthy (x : float) : bool := negb (PrimFloat.eqb x 0%float).

(** [bool(x)] for an [Optional[float]]. *)
Definition opt_float_truthy (x : option float) : bool :=
  match x with
  | None => false
  | Some f => float_truthy f
  end.

(** [bool(s)] for an [Optional[str]]: [None] and the empty string are
    false. *)
Definition opt_str_truthy (x : option string) : bool :=
  match x with
  | None | Some EmptyString => false
  | Some _ => true
  end.

Inductive log_level : Set := DEBUG | INFO | WARNING | ERROR.

(** A log record: its level and the constant prefix of its message (the
    interpolated object representations are left out). *)
Definition log_record : Type := log_level * string.

(* ===================================================================== *)
(** * The lifecycle engine *)
(* ===================================================================== *)

Module Engine.

(** Whatever carries a [status] field: the engine knows nothing else
    about the entity. *)
Class Entity (A : Type) : Type := {
  status_of : A -> EntityStatus;
  with_status : EntityStatus -> A -> A
}.

(** Modelled from the spec: the contract [apply(entity_with_status, event)
    -> new_status] of section 4.1, on the status alone.  The error names
    both inputs. *)
Definition apply (st : EntityStatus) (ev : EntityEvents) : result EntityStatus :=
  match lookup_transition transitions st ev with
  | Some target => Ok target
  | None => Raise (TransitionError st ev)
  end.

(** Modelled from the spec: [EntityLifecycle.handle_event(entity, event)],
    which "mutates the entity's status field in place and returns the
    prior state"; [sel] and [upd] locate the entity in the world. *)
Definition handle_event {S A} `{Entity A} (sel : S -> A) (upd : A -> S -> S)
    (ev : EntityEvents) : M S EntityStatus :=
  s <~ get;
  let prior := status_of (sel s) in
  match apply prior ev with
  | Ok target => exec modify (fun s => upd (with_status target (sel s)) s); ret prior
  | Raise e => raise e
  end.

End Engine.

(* ===================================================================== *)
(** * Regular expressions, as Python's [re.match] runs them *)
(* ===================================================================== *)

Module Re.

(** The fragment of Python's pattern syntax that [agent.py] uses: the
    anchors [^] and [$], a literal, a character class given by its ranges,
    concatenation, [*] and [+].  A non-capturing group [(?:...)] is plain
    grouping. *)
Inductive regex : Type :=
| Bol
| Eol
| Lit (c : ascii)
| Class (ranges : list (ascii * ascii))
| Cat (r1 r2 : regex)
| Star (r : regex)
| Plus (r : regex).

Definition newline : ascii := "010"%char.

Definition in_range (c : ascii) (range : ascii * ascii) : bool :=
  (nat_of_ascii (fst range) <=? nat_of_ascii c)%nat
  && (nat_of_ascii c <=? nat_of_ascii (snd range))%nat.

Definition in_class (ranges : list (ascii * ascii)) (c : ascii) : bool :=
  existsb (in_range c) ranges.

(** Without [re.MULTILINE], [$] matches at the end of the string and also
    just before a newline that is the last character of the string. *)
Definition at_eol (rest : string) : bool :=
  match rest with
  | EmptyString => true
  | String c EmptyString => if decide (c = newline) then true else false
  | _ => false
  end.

(** Iteration of [step], continuing with [k] after any number of rounds;
    a round has to consume input, which bounds the rounds by the length
    of what is left ([fuel]). *)
Fixpoint star (step : nat -> string -> (nat -> string -> bool) -> bool)
    (fuel : nat) (pos : nat) (s : string) (k : nat -> string -> bool) : bool :=
  match fuel with
  | O => k pos s
  | S fuel' =>
      step pos s (fun pos' s' =>
        (String.length s' <? String.length s)%nat && star step fuel' pos' s' k)
      || k pos s
  end.

(** A backtracking matcher in continuation-passing style: [rmatch r pos s k]
    holds when [r] matches a prefix of [s], which starts at offset [pos]
    of the subject, and [k] accepts the offset and the text after it. *)
Fixpoint rmatch (r : regex) (pos : nat) (s : string)
    (k : nat -> string -> bool) : bool :=
  match r with
  | Bol => (pos =? 0)%nat && k pos s
  | Eol => at_eol s && k pos s
  | Lit c =>
      match s with
      | String c' s' => if decide (c' = c) then k (S pos) s' else false
      | EmptyString => false
      end
  | Class ranges =>
      match s with
      | String c' s' => if in_class ranges c' then k (S pos) s' else false
      | EmptyString => false
      end
  | Cat r1 r2 => rmatch r1 pos s (fun pos' s' => rmatch r2 pos' s' k)
  | Star r1 => star (rmatch r1) (String.length s) pos s k
  | Plus r1 =>
      rmatch r1 pos s (fun pos' s' =>
        star (rmatch r1) (String.length s') pos' s' k)
  end.

(** [re.match(pattern, s)] is not [None]: the pattern matches at offset 0;
    the match need not reach the end of [s]. *)
Definition re_match (pattern : regex) (s : string) : bool :=
  rmatch pattern 0 s (fun _ _ => true).

(** What a pattern denotes: [lang r pos s pos' s'] when [r] can consume,
    from offset [pos] with [s] ahead, up to offset [pos'] with [s']
    ahead. *)
Inductive lang : regex -> nat -> string -> nat -> string -> Prop :=
| lang_bol s : lang Bol 0 s 0 s
| lang_eol pos s : at_eol s = true -> lang Eol pos s pos s
| lang_lit c pos s : lang (Lit c) pos (String c s) (S pos) s
| lang_class ranges c pos s :
    in_class ranges c = true -> lang (Class ranges) pos (String c s) (S pos) s
| lang_cat r1 r2 pos s pos1 s1 pos2 s2 :
    lang r1 pos s pos1 s1 -> lang r2 pos1 s1 pos2 s2 ->
    lang (Cat r1 r2) pos s pos2 s2
| lang_star_done r pos s : lang (Star r) pos s pos s
| lang_star_more r pos s pos1 s1 pos2 s2 :
    lang r pos s pos1 s1 -> (String.length s1 < String.length s)%nat ->
    lang (Star r) pos1 s1 pos2 s2 -> lang (Star r) pos s pos2 s2
| lang_plus r pos s pos1 s1 pos2 s2 :
    lang r pos s pos1 s1 -> lang (Star r) pos1 s1 pos2 s2 ->
    lang (Plus r) pos s pos2 s2.

(** What it means for a matching step to compute [r]. *)
Definition computes (step : nat -> string -> (nat -> string -> bool) -> bool)
    (r : regex) : Prop :=
  forall pos s k,
    step pos s k = true <-> exists pos' s', lang r pos s pos' s' /\ k pos' s' = true.

End Re.

(* ===================================================================== *)
(** * The method registry ([AgentMethod], [AgentMethodsModel]) *)
(* ===================================================================== *)

Module Registry.

Import Re.

(** [AgentMethodModel]; [params] is the static keyword dictionary and
    [fields] the list of form-field definitions. *)
Record AgentMethod : Type := {
  name : string;
  method : string;
  params : option (gmap string pyobj);
  fields : option (list pydict);
  description : option string;
  is_async : bool
}.

(** A [dict[str, AgentMethod]]: Python dictionaries iterate in insertion
    order, so the dictionary is the list of its items. *)
Definition custom_dict : Type := list (string * AgentMethod).

(** [AgentMethodsModel]. *)
Record AgentMethods : Type := {
  job_start : AgentMethod;
  job_stop : AgentMethod;
  job_status : AgentMethod;
  chat : option AgentMethod;
  custom : option custom_dict
}.

(** [[a-z0-9]]. *)
Definition lower_or_digit : regex :=
  Class [("a"%char, "z"%char); ("0"%char, "9"%char)].

(** [(?:-[a-z0-9]+)]. *)
Definition hyphen_group : regex := Cat (Lit "-"%char) (Plus lower_or_digit).

(** [r"^[a-z0-9]+(?:-[a-z0-9]+)*$"]. *)
Definition slug_pattern : regex :=
  Cat Bol (Cat (Plus lower_or_digit) (Cat (Star hyphen_group) Eol)).

Definition not_a_slug_message (key : string) : string :=
  "Custom method key '" +:+ key +:+ "' is not a valid slug. "
  +:+ "Keys must contain only lowercase letters, numbers, and hyphens, "
  +:+ "and cannot start or end with a hyphen. "
  +:+ "Examples: 'backup', 'health-check', 'sync-data'".

Definition too_long_message (key : string) : string :=
  "Custom method key '" +:+ key +:+ "' is too long (max 50 characters)".

(** The body of the loop of [validate_custom_method_keys] for one key. *)
Definition check_key (key : string) : result unit :=
  if negb (re_match slug_pattern key) then
    Raise (ValueError (not_a_slug_message key))
  else if (50 <? String.length key)%nat then
    Raise (ValueError (too_long_message key))
  else Ok tt.

(** [for key in value.keys(): ...]: the first failing key raises. *)
Fixpoint check_keys (keys : list string) : result unit :=
  match keys with
  | [] => Ok tt
  | key :: rest =>
      match check_key key with
      | Ok _ => check_keys rest
      | Raise e => Raise e
      end
  end.

(** Truth value of an optional dictionary ([if value:]): [None] and the
    empty dictionary are false. *)
Definition dict_truthy {A} (value : option (list (string * A))) : bool :=
  match value with
  | None | Some [] => false
  | Some (_ :: _) => true
  end.

(** The keys of the dictionary, in iteration order. *)
Definition keys_of (value : option custom_dict) : list string :=
  map fst (default [] value).

(** [AgentMethodsModel.validate_custom_method_keys]. *)
Definition validate_custom_method_keys (value : option custom_dict)
    : result (option custom_dict) :=
  if dict_truthy value then
    match check_keys (keys_of value) with
    | Ok _ => Ok value
    | Raise e => Raise e
    end
  else Ok value.

(** Construction of an [AgentMethodsModel] from well-typed fields:
    pydantic runs the field validator of [custom] and reports a
    [ValueError] raised there as a [ValidationError] for that field. *)
Definition AgentMethodsModel (job_start job_stop job_status : AgentMethod)
    (chat : option AgentMethod) (custom : option custom_dict)
    : result AgentMethods :=
  match validate_custom_method_keys custom with
  | Ok value =>
      Ok {| job_start := job_start; job_stop := job_stop;
            job_status := job_status; chat := chat; custom := value |}
  | Raise (ValueError msg) => Raise (ValidationError "custom" msg)
  | Raise e => Raise e
  end.

(** The slug grammar [[a-z0-9]+(-[a-z0-9]+)*] of the data model, read as
    it is written: a non-empty word of lowercase letters and digits,
    followed by any number of groups made of a hyphen and such a word. *)
Fixpoint all_lower_or_digit (w : string) : bool :=
  match w with
  | EmptyString => true
  | String c w' =>
      in_class [("a"%char, "z"%char); ("0"%char, "9"%char)] c
      && all_lower_or_digit w'
  end.

Definition is_word (w : string) : Prop :=
  w <> "" /\ all_lower_or_digit w = true.

(** Any number of groups "hyphen, word". *)
Inductive hyphenated : string -> Prop :=
| hyphenated_nil : hyphenated ""
| hyphenated_cons w t :
    is_word w -> hyphenated t -> hyphenated ("-" +:+ w +:+ t).

Definition is_slug (s : string) : Prop :=
  exists w t, is_word w /\ hyphenated t /\ s = w +:+ t.

(** [basic_method] of [tests/test_agent.py]. *)
Definition basic_method : AgentMethod :=
  {| name := "test"; method := "test.method"; params := None; fields := None;
     description := Some "Test method"; is_async := false |}.

(** [AgentMethodsModel(job_start=basic_method, job_stop=basic_method,
    job_status=basic_method, custom={key: basic_method})], as in
    [test_custom_method_key_validation]. *)
Definition model_with_key (key : string) : result AgentMethods :=
  AgentMethodsModel basic_method basic_method basic_method None
    (Some [(key, basic_method)]).

(** A key that ends with a line feed. *)
Definition key_with_newline : string := String "a"%char (String newline "").

(** What [check_key] lets through. *)
Definition accepted_key (key : string) : Prop := check_key key = Ok tt.

(** Only lowercase letters, digits and hyphens. *)
Fixpoint slug_chars (s : string) : bool :=
  match s with
  | EmptyString => true
  | String c s' =>
      (in_class [("a"%char, "z"%char); ("0"%char, "9"%char)] c
       || bool_decide (c = "-"%char))
      && slug_chars s'
  end.

End Registry.

(* ===================================================================== *)
(** * Cases ([case.py]) *)
(* ===================================================================== *)

Module Cases.

Import Engine.

(** A [CaseNodeUpdate] is a mutable object: callers hold a reference to
    it, [Case.update] writes its [index] and stores the same reference in
    the list of updates. *)
Definition ref : Type := nat.

(** [CaseNodeUpdate]. *)
Record CaseNodeUpdate : Type := {
  index : option Z;
  cost : option float;
  name : option string;
  payload : option pydict;
  is_final : bool;
  question : option pydict
}.

(** [CaseNodeUpdate.__init__], with its defaults spelled out by the
    caller. *)
Definition new_CaseNodeUpdate (cost : option float) (name : option string)
    (payload : option pydict) (is_final : bool) (question : option pydict)
    (index : option Z) : CaseNodeUpdate :=
  {| index := index; cost := cost; name := name; payload := payload;
     is_final := is_final; question := question |}.

(** [update.index = i]. *)
Definition set_index (i : Z) (u : CaseNodeUpdate) : CaseNodeUpdate :=
  {| index := Some i; cost := cost u; name := name u; payload := payload u;
     is_final := is_final u; question := question u |}.

Inductive CaseNoteType : Set :=
| CHAT | TRIGGER | NOTIFICATION | VALIDATION | DELIVERY | ERROR_NOTE
| WARNING_NOTE | INFO_NOTE.

Record CaseNode : Type := {
  node_name : string;
  node_description : string;
  node_type : CaseNoteType
}.

(** [CaseModel]; the [account] it refers to is the collaborator of the
    world below. *)
Record Case : Type := {
  id : string;
  job_id : string;
  case_name : string;
  description : string;
  status : EntityStatus;
  nodes : list CaseNode;
  updates : list ref;
  total_cost : float;
  final_delivery : option pydict;
  finished_at : option Z
}.

Definition set_status (st : EntityStatus) (c : Case) : Case :=
  {| id := id c; job_id := job_id c; case_name := case_name c;
     description := description c; status := st; nodes := nodes c;
     updates := updates c; total_cost := total_cost c;
     final_delivery := final_delivery c; finished_at := finished_at c |}.

Definition set_updates (l : list ref) (c : Case) : Case :=
  {| id := id c; job_id := job_id c; case_name := case_name c;
     description := description c; status := status c; nodes := nodes c;
     updates := l; total_cost := total_cost c;
     final_delivery := final_delivery c; finished_at := finished_at c |}.

Definition set_total_cost (x : float) (c : Case) : Case :=
  {| id := id c; job_id := job_id c; case_name := case_name c;
     description := description c; status := status c; nodes := nodes c;
     updates := updates c; total_cost := x;
     final_delivery := final_delivery c; finished_at := finished_at c |}.

Definition set_final_delivery (d : option pydict) (c : Case) : Case :=
  {| id := id c; job_id := job_id c; case_name := case_name c;
     description := description c; status := status c; nodes := nodes c;
     updates := updates c; total_cost := total_cost c;
     final_delivery := d; finished_at := finished_at c |}.

Definition set_finished_at (t : option Z) (c : Case) : Case :=
  {| id := id c; job_id := job_id c; case_name := case_name c;
     description := description c; status := status c; nodes := nodes c;
     updates := updates c; total_cost := total_cost c;
     final_delivery := final_delivery c; finished_at := t |}.

#[export] Instance Case_entity : Entity Case :=
  {| status_of := status; with_status := set_status |}.

(** What the Account collaborator has been asked to send: the case and
    the update as they were when the call was made. *)
Inductive account_call : Type :=
| SentStartCase (case : Case)
| SentUpdateCase (case : Case) (update : ref) (seen : option CaseNodeUpdate).

(** The world of a case: the store of update objects, the case the
    methods are called on, the calls the Account has received, the log
    and the wall clock. *)
Record world : Type := {
  heap : gmap ref CaseNodeUpdate;
  self : Case;
  account : list account_call;
  logs : list log_record;
  clock : Z
}.

Definition set_heap (h : gmap ref CaseNodeUpdate) (w : world) : world :=
  {| heap := h; self := self w; account := account w; logs := logs w;
     clock := clock w |}.

Definition set_self (c : Case) (w : world) : world :=
  {| heap := heap w; self := c; account := account w; logs := logs w;
     clock := clock w |}.

Definition set_account (l : list account_call) (w : world) : world :=
  {| heap := heap w; self := self w; account := l; logs := logs w;
     clock := clock w |}.

Definition set_logs (l : list log_record) (w : world) : world :=
  {| heap := heap w; self := self w; account := account w; logs := l;
     clock := clock w |}.

(** [log.info(...)] and the like. *)
Definition log (level : log_level) (msg : string) : M world unit :=
  modify (fun w => set_logs (logs w ++ [(level, msg)]) w).

(** Allocation of a new object: its reference is not in use. *)
Definition alloc (u : CaseNodeUpdate) : M world ref :=
  fun w => let r := fresh (dom (heap w)) in (Ok r, set_heap (<[r := u]> (heap w)) w).

(** Attribute assignment [obj.index = i] on the object behind [r]. *)
Definition assign_index (r : ref) (i : Z) : M world unit :=
  modify (fun w => set_heap (alter (set_index i) r (heap w)) w).

(** Modelled from the spec: [Account.send_update_case(case, update)] of
    section 6; [supervaizer/account.py] is not among the sources.  The
    core hands the case and the update over and goes on. *)
Definition send_update_case (r : ref) : M world unit :=
  modify (fun w => set_account (account w ++ [SentUpdateCase (self w) r (heap w !! r)]) w).

(** Modelled from the spec: [Account.send_start_case(case)] of section 6. *)
Definition send_start_case : M world unit :=
  modify (fun w => set_account (account w ++ [SentStartCase (self w)]) w).

(** [len(self.updates) + 1]. *)
Definition next_index (w : world) : Z := Z.of_nat (length (updates (self w))) + 1.

(** [self.updates.append(r)]. *)
Definition append_update (r : ref) : M world unit :=
  modify (fun w => set_self (set_updates (updates (self w) ++ [r]) (self w)) w).

(** [update.cost or 0.0], for the object behind [r]. *)
Definition cost_or_zero (h : gmap ref CaseNodeUpdate) (r : ref) : float :=
  match h !! r with
  | Some u => if opt_float_truthy (cost u) then default 0%float (cost u) else 0%float
  | None => 0%float
  end.

(** [Case.calculated_cost]: [sum(update.cost or 0.0 for update in
    self.updates)], the costs added from the left in binary64, starting
    from zero.  (From Python 3.12 on, [sum] compensates the rounding
    errors of float additions; the two agree whenever the additions are
    exact.) *)
Definition calculated_cost (w : world) : float :=
  fold_left PrimFloat.add (map (cost_or_zero (heap w)) (updates (self w))) 0%float.

(** [Case.update]. *)
Definition update (updateCaseNode : ref) : M world unit :=
  w <~ get;
  exec assign_index updateCaseNode (next_index w);
  exec send_update_case updateCaseNode;
  append_update updateCaseNode.

(** [Case.human_input]. *)
Definition human_input (updateCaseNode : ref) (message : string) : M world unit :=
  w <~ get;
  exec assign_index updateCaseNode (next_index w);
  exec log INFO "[Update case human_input]";
  exec send_update_case updateCaseNode;
  append_update updateCaseNode.

(** [Case.resume]. *)
Definition resume : M world unit :=
  exec handle_event self set_self INPUT_RECEIVED;
  ret tt.

(** [Case.close]. *)
Definition close (case_result : pydict) (final_cost : option float) : M world unit :=
  exec (if opt_float_truthy final_cost
        then modify (fun w => set_self (set_total_cost (default 0%float final_cost) (self w)) w)
        else modify (fun w => set_self (set_total_cost (calculated_cost w) (self w)) w));
  exec log INFO "[Close case]";
  exec handle_event self set_self SUCCESSFULLY_DONE;
  update <~ alloc (new_CaseNodeUpdate None None (Some case_result) true None None);
  w <~ get;
  exec assign_index update (next_index w);
  exec modify (fun w => set_self (set_final_delivery (Some case_result) (self w)) w);
  exec modify (fun w => set_self (set_finished_at (Some (clock w)) (self w)) w);
  send_update_case update.

(** [Case.start]; [uuid] is what [shortuuid.uuid()] returns when it is
    called. *)
Definition start (job_id name : string) (description : string)
    (nodes : list CaseNode) (case_id : option string) (uuid : string)
    : M world unit :=
  let case :=
    {| id := if opt_str_truthy case_id then default "" case_id else uuid;
       job_id := job_id; case_name := name; description := description;
       status := STOPPED; nodes := nodes; updates := [];
       total_cost := 0%float; final_delivery := None; finished_at := None |} in
  exec modify (set_self case);
  exec log INFO "[Case created]";
  exec handle_event self set_self START_WORK;
  send_start_case.

(** The calls that append to the log of updates. *)
Inductive append_call : Type :=
| CallUpdate (updateCaseNode : ref)
| CallHumanInput (updateCaseNode : ref) (message : string).

Definition appended (c : append_call) : ref :=
  match c with
  | CallUpdate r => r
  | CallHumanInput r _ => r
  end.

Definition run_append (c : append_call) : M world unit :=
  match c with
  | CallUpdate r => update r
  | CallHumanInput r message => human_input r message
  end.

(** A sequence of calls, one after the other; the first exception ends
    it. *)
Fixpoint run_appends (calls : list append_call) : M world unit :=
  match calls with
  | [] => ret tt
  | c :: rest => exec run_append c; run_appends rest
  end.

(** The recorded index of the [i]-th entry of the log of updates, read
    through the store ([self.updates[i].index]). *)
Definition recorded_index (w : world) (i : nat) : option Z :=
  r ← updates (self w) !! i; u ← heap w !! r; index u.

(** The log of updates as a reader sees it: the objects behind the
    references, in order. *)
Definition read_updates (w : world) : list (option CaseNodeUpdate) :=
  map (fun r => heap w !! r) (updates (self w)).

(** Every reference the case holds is to an object of the store. *)
Definition wf (w : world) : Prop :=
  forall r, r ∈ updates (self w) -> is_Some (heap w !! r).

(** A world in which nothing has happened yet: the caller's update
    objects are in the store, no case has been started. *)
Definition initial_world (h : gmap ref CaseNodeUpdate) : world :=
  {| heap := h;
     self := {| id := ""; job_id := ""; case_name := ""; description := "";
                status := STOPPED; nodes := []; updates := [];
                total_cost := 0%float; final_delivery := None;
                finished_at := None |};
     account := []; logs := []; clock := 0 |}.

(** The world after [Case.start(job_id="job-1", name="case",
    account=account, description="a case", nodes=[], case_id="case-1")]. *)
Definition started_world (h : gmap ref CaseNodeUpdate) : world :=
  snd (start "job-1" "case" "a case" [] (Some "case-1") "uuid" (initial_world h)).

(** Two update objects of a caller: [CaseNodeUpdate(name="first",
    index=7)] and [CaseNodeUpdate(cost=5.0, name="second")]. *)
Definition two_updates : gmap ref CaseNodeUpdate :=
  <[0%nat := new_CaseNodeUpdate None (Some "first") None false None (Some 7)]>
    (<[1%nat := new_CaseNodeUpdate (Some 5%float) (Some "second") None false None None]> ∅).

(** One update object of a caller: [CaseNodeUpdate(cost=5.0)]. *)
Definition one_update : gmap ref CaseNodeUpdate :=
  <[0%nat := new_CaseNodeUpdate (Some 5%float) None None false None None]> ∅.

(** [{"ok": True}]. *)
Definition ok_result : pydict := [("ok", PyBool true)].

(** The world after [Case.start(...)] and one [case.update(
    CaseNodeUpdate(cost=5.0))]. *)
Definition costed_world : world :=
  snd (update 0%nat (started_world one_update)).

End Cases.

(* ===================================================================== *)
(** * Jobs and dispatch ([agent.py]) *)
(* ===================================================================== *)

Module Agents.

Import Registry.

(** [JobContext], as [tests/test_agent.py] builds it. *)
Record JobContext : Type := {
  workspace_id : string;
  ctx_job_id : string;
  started_by : string;
  started_at : Z;
  mission_id : string;
  mission_name : string;
  mission_context : option string;
  job_instructions : option string
}.

(** [JobResponse]: [{job_id, status, message, payload, error?}]. *)
Record JobResponse : Type := {
  job_id : string;
  status : EntityStatus;
  message : string;
  payload : option pydict;
  error : option exn
}.

(** [Job]: its identity, its context, its log of responses and the
    decrypted agent parameters. *)
Record Job : Type := {
  id : string;
  agent_name : string;
  job_context : JobContext;
  responses : list JobResponse;
  agent_parameters : option (list pydict)
}.

Definition set_responses (l : list JobResponse) (j : Job) : Job :=
  {| id := id j; agent_name := agent_name j; job_context := job_context j;
     responses := l; agent_parameters := agent_parameters j |}.

(** A keyword argument of a dispatched method. *)
Inductive arg : Type :=
| ArgStatic (v : pyobj)
| ArgFields (job_fields : pydict)
| ArgContext (context : JobContext)
| ArgAgentParameters (agent_parameters : option (list pydict)).

Definition kwargs : Type := gmap string arg.

(** What calling a method body gives: a returned object, which is a
    [JobResponse] or something of another type, or a raised exception. *)
Inductive returned : Type :=
| RetJobResponse (r : JobResponse)
| RetOther (type_name : string).

Inductive outcome : Type :=
| Returns (v : returned)
| Raises (e : exn).

(** A method of the agent, as [_execute] calls it: what it returns or
    raises for the keyword arguments it is given.  A method is taken to
    leave the objects it is passed as they are. *)
Definition callable : Type := kwargs -> outcome.

(** The importable modules and their attributes: [__import__] followed by
    [getattr]. *)
Definition py_modules : Type := string -> option (string -> option callable).

(** The hosting server, as far as [job_start] looks at it. *)
Record Server : Type := {
  supervisor_account : option string
}.

(** The agent, as far as dispatch looks at it. *)
Record Agent : Type := {
  name : string;
  methods : AgentMethods
}.

(** What collaborators have been asked to do. *)
Inductive account_call : Type :=
| SentJobStartConfirmation (account : string) (job : Job).

(** The world of a dispatch: the job (mutated in place), the events the
    Account has received, the jobs the job-finished hook was called with,
    the method bodies that were invoked, and the log. *)
Record world : Type := {
  job : Job;
  account : list account_call;
  finished : list Job;
  invoked : list (string * kwargs);
  logs : list log_record
}.

Definition set_job (j : Job) (w : world) : world :=
  {| job := j; account := account w; finished := finished w;
     invoked := invoked w; logs := logs w |}.

Definition set_account (l : list account_call) (w : world) : world :=
  {| job := job w; account := l; finished := finished w;
     invoked := invoked w; logs := logs w |}.

Definition set_finished (l : list Job) (w : world) : world :=
  {| job := job w; account := account w; finished := l;
     invoked := invoked w; logs := logs w |}.

Definition set_invoked (l : list (string * kwargs)) (w : world) : world :=
  {| job := job w; account := account w; finished := finished w;
     invoked := l; logs := logs w |}.

Definition set_logs (l : list log_record) (w : world) : world :=
  {| job := job w; account := account w; finished := finished w;
     invoked := invoked w; logs := l |}.

Definition log (level : log_level) (msg : string) : M world unit :=
  modify (fun w => set_logs (logs w ++ [(level, msg)]) w).

(** Modelled from the spec: [Job.add_response] appends to the job's log
    of responses (sections 3 and 4.4); [supervaizer/job.py] is not among
    the sources. *)
Definition add_response (r : JobResponse) : M world unit :=
  modify (fun w => set_job (set_responses (responses (job w) ++ [r]) (job w)) w).

(** Modelled from the spec: the job-finished hook [notify(job, server)]
    of section 6 ([service_job_finished] of [supervaizer/job_service.py],
    not among the sources): an external notification, taken to return
    normally; the call is recorded with the job as it stands. *)
Definition service_job_finished : M world unit :=
  modify (fun w => set_finished (finished w ++ [job w]) w).

(** Modelled from the spec: [Account.send_event(sender, event)] of
    section 6, for the job-start confirmation. *)
Definition send_event (account_id : string) : M world unit :=
  modify (fun w => set_account (account w ++ [SentJobStartConfirmation account_id (job w)]) w).

(** [action.rsplit(".", 1)], unpacked into two names: [None] when there is
    no dot to split at. *)
Fixpoint rsplit_dot (action : string) : option (string * string) :=
  match action with
  | EmptyString => None
  | String c rest =>
      match rsplit_dot rest with
      | Some (module_name, func_name) => Some (String c module_name, func_name)
      | None => if decide (c = "."%char) then Some (EmptyString, rest) else None
      end
  end.

(** [str(e)]. *)
Definition str_exn (e : exn) : string :=
  match e with
  | TransitionError _ _ => "Invalid transition"
  | ValueError msg => msg
  | ValidationError loc msg => "1 validation error for " +:+ loc +:+ ": " +:+ msg
  | NotImplementedError msg => msg
  | TypeError msg => msg
  | KeyError key => "'" +:+ key +:+ "'"
  | ImportError msg => msg
  | AttributeError msg => msg
  | MethodError _ msg => msg
  end.

(** [Agent._execute]. *)
Definition _execute (modules : py_modules) (action : string) (params : kwargs)
    : M world JobResponse :=
  match rsplit_dot action with
  | None => raise (ValueError "not enough values to unpack (expected 2, got 1)")
  | Some (module_name, func_name) =>
      match modules module_name with
      | None => raise (ImportError ("No module named '" +:+ module_name +:+ "'"))
      | Some module =>
          match module func_name with
          | None => raise (AttributeError ("module '" +:+ module_name +:+ "' has no attribute '" +:+ func_name +:+ "'"))
          | Some method =>
              exec log DEBUG "[Agent method]";
              exec modify (fun w => set_invoked (invoked w ++ [(action, params)]) w);
              match method params with
              | Raises e => raise e
              | Returns (RetJobResponse result) => ret result
              | Returns (RetOther type_name) =>
                  raise (TypeError ("Method " +:+ func_name +:+ " must return a JobResponse object, got " +:+ type_name))
              end
          end
      end
  end.

(** [self.methods.custom[method_name]]. *)
Definition custom_method (methods : AgentMethods) (method_name : string)
    : result AgentMethod :=
  match custom methods with
  | None => Raise (TypeError "'NoneType' object is not subscriptable")
  | Some d =>
      match list_find (fun kv => fst kv = method_name) d with
      | Some (_, (_, m)) => Ok m
      | None => Raise (KeyError method_name)
      end
  end.

(** [action.params or {}]. *)
Definition params_or_empty (p : option (gmap string pyobj)) : gmap string pyobj :=
  default ∅ p.

(** [method_params | {"fields": ...} | {"context": ...} |
    {"agent_parameters": ...}]: a later dictionary wins on a common key. *)
Definition merged_params (action : AgentMethod) (job_fields : pydict)
    (context : JobContext) (agent_parameters : option (list pydict)) : kwargs :=
  <["agent_parameters" := ArgAgentParameters agent_parameters]>
    (<["context" := ArgContext context]>
       (<["fields" := ArgFields job_fields]>
          (ArgStatic <$> params_or_empty (params action)))).

Definition starting_response (j : Job) : JobResponse :=
  {| job_id := id j; status := IN_PROGRESS;
     message := "Starting job execution"; payload := None; error := None |}.

Definition failed_response (j : Job) (e : exn) : JobResponse :=
  {| job_id := id j; status := FAILED;
     message := "Job execution failed: " +:+ str_exn e; payload := None;
     error := Some e |}.

(** Lines 499-508 of [job_start]: the job-start confirmation goes to the
    supervisor account when the server has one; otherwise a warning is
    logged. *)
Definition announce (server : Server) : M world unit :=
  match supervisor_account server with
  | Some account_id => send_event account_id
  | None => log WARNING "[Agent job_start] No supervisor account defined for server, skipping event send"
  end.

(** Lines 521-524: [self.methods.job_start] for the name ["job_start"],
    and [self.methods.custom[method_name]] for any other name. *)
Definition select_action (methods : AgentMethods) (method_name : string)
    : result AgentMethod :=
  if decide (method_name = "job_start") then Ok (job_start methods)
  else custom_method methods method_name.

(** Lines 552-568: what is done with the response a method returned. *)
Definition classify (job_response : JobResponse) : M world unit :=
  if decide (status job_response = COMPLETED \/ status job_response = FAILED
             \/ status job_response = CANCELLED \/ status job_response = CANCELLING)
  then
    exec add_response job_response;
    service_job_finished
  else if decide (status job_response = AWAITING) then
    exec log DEBUG "[Agent job_start] Job is awaiting input, adding response";
    add_response job_response
  else
    log WARNING "[Agent job_start] Job is not a terminal status, skipping job finish".

(** Lines 570-582: the handler of [except Exception as e]. *)
Definition record_failure (e : exn) : M world unit :=
  exec log ERROR "[Agent job_start] Job failed";
  w <~ get;
  exec add_response (failed_response (job w) e);
  raise e.

Definition not_implemented : exn :=
  NotImplementedError "[Agent job_start] Async job execution is not implemented".

(** [Agent.job_start]; it returns the job, which is the one of the
    world. *)
Definition job_start (modules : py_modules) (self : Agent)
    (job_fields : pydict) (context : JobContext) (server : Server)
    (method_name : string) : M world Job :=
  exec log DEBUG "[Agent job_start] Run";
  exec announce server;
  w <~ get;
  exec add_response (starting_response (job w));
  action <~ lift (select_action (methods self) method_name);
  let action_method := method action in
  let params := merged_params action job_fields context (agent_parameters (job w)) in
  exec log DEBUG "[Agent job_start] action_method";
  exec try_except
    (if is_async (job_start (methods self)) then
       raise not_implemented
     else
       job_response <~ _execute modules action_method params;
       classify job_response)
    record_failure;
  w' <~ get;
  ret (job w').

(** The job, the agent and the modules of a small deployment, after the
    fixtures of [tests/test_agent.py]. *)
Definition test_context : JobContext :=
  {| workspace_id := "test-workspace-id"; ctx_job_id := "test-job-id";
     started_by := "test-started-by"; started_at := 0;
     mission_id := "test-mission-id"; mission_name := "test-mission-name";
     mission_context := None; job_instructions := None |}.

Definition test_job : Job :=
  {| id := "test-job-id"; agent_name := "agentName";
     job_context := test_context; responses := []; agent_parameters := None |}.

Definition test_world : world :=
  {| job := test_job; account := []; finished := []; invoked := []; logs := [] |}.

Definition test_fields : pydict := [("full_name", PyStr "John Doe"); ("age", PyInt 30)].

Definition response_with (st : EntityStatus) : JobResponse :=
  {| job_id := "test-job-id"; status := st; message := "done";
     payload := None; error := None |}.

(** A module [control] with a function per behaviour. *)
Definition control_module (func_name : string) : option callable :=
  if decide (func_name = "fails") then
    Some (fun _ => Raises (MethodError "RuntimeError" "boom"))
  else if decide (func_name = "completes") then
    Some (fun _ => Returns (RetJobResponse (response_with COMPLETED)))
  else if decide (func_name = "awaits") then
    Some (fun _ => Returns (RetJobResponse (response_with AWAITING)))
  else if decide (func_name = "lingers") then
    Some (fun _ => Returns (RetJobResponse (response_with IN_PROGRESS)))
  else None.

Definition test_modules : py_modules :=
  fun module_name =>
    if decide (module_name = "control") then Some control_module else None.

Definition method_calling (action : string) (async : bool) : AgentMethod :=
  {| Registry.name := "start"; method := action;
     params := Some {["param1" := PyStr "value1"]}; fields := None;
     description := Some "Start the agent"; is_async := async |}.

(** An agent whose [job_start] entry calls [action]. *)
Definition agent_calling (action : string) : Agent :=
  {| name := "agentName";
     methods := {| Registry.job_start := method_calling action false;
                   job_stop := method_calling "control.completes" false;
                   job_status := method_calling "control.completes" false;
                   chat := None; custom := None |} |}.

(** An agent whose [job_start] entry is synchronous and whose custom
    entry ["sync-data"] is declared [is_async=True]. *)
Definition agent_with_async_custom : Agent :=
  {| name := "agentName";
     methods := {| Registry.job_start := method_calling "control.completes" false;
                   job_stop := method_calling "control.completes" false;
                   job_status := method_calling "control.completes" false;
                   chat := None;
                   custom := Some [("sync-data", method_calling "control.completes" true)] |} |}.

(** An agent whose [job_start] entry is declared [is_async=True]. *)
Definition agent_with_async_start : Agent :=
  {| name := "agentName";
     methods := {| Registry.job_start := method_calling "control.completes" true;
                   job_stop := method_calling "control.completes" false;
                   job_status := method_calling "control.completes" false;
                   chat := None;
                   custom := Some [("sync-data", method_calling "control.completes" false)] |} |}.

Definition test_server : Server := {| supervisor_account := Some "account-1" |}.

End Agents.

(* ===================================================================== *)
(** * Remote parameter updates ([agent.py], [parameter.py]) *)
(* ===================================================================== *)

Module Parameters.

(** A parameter definition: [{name, value, description?, is_environment}]
    (the class [Parameter]). *)
Record ParameterDefinition : Type := {
  name : string;
  value : option string;
  description : option string;
  is_environment : bool
}.

Definition set_value (v : string) (p : ParameterDefinition) : ParameterDefinition :=
  {| name := name p; value := Some v; description := description p;
     is_environment := is_environment p |}.

(** One record of the wire format: [{name, value, is_environment}]. *)
Record update_record : Type := {
  rec_name : string;
  rec_value : string;
  rec_is_environment : bool
}.

(** The agent's parameter store, the encrypted parameters it last
    received, and the process environment ([os.environ]). *)
Record world : Type := {
  parameters_setup : option (gmap string ParameterDefinition);
  server_encrypted_parameters : option string;
  environ : gmap string string;
  logs : list log_record
}.

Definition set_parameters_setup (d : option (gmap string ParameterDefinition)) (w : world) : world :=
  {| parameters_setup := d;
     server_encrypted_parameters := server_encrypted_parameters w;
     environ := environ w; logs := logs w |}.

Definition set_server_encrypted_parameters (x : option string) (w : world) : world :=
  {| parameters_setup := parameters_setup w;
     server_encrypted_parameters := x;
     environ := environ w; logs := logs w |}.

Definition set_environ (e : gmap string string) (w : world) : world :=
  {| parameters_setup := parameters_setup w;
     server_encrypted_parameters := server_encrypted_parameters w;
     environ := e; logs := logs w |}.

Definition set_logs (l : list log_record) (w : world) : world :=
  {| parameters_setup := parameters_setup w;
     server_encrypted_parameters := server_encrypted_parameters w;
     environ := environ w; logs := l |}.

Definition definitions (w : world) : gmap string ParameterDefinition :=
  default ∅ (parameters_setup w).

(** The hosting server, as the key owner: [decrypt], and the decoding of
    the decrypted JSON text into records ([json.loads]). *)
Record Server : Type := {
  decrypt : string -> result string;
  json_loads : string -> result (list update_record)
}.

(** Modelled from the spec: one step of [apply_remote_update] (section
    4.6), that is of [ParametersSetup.update_values_from_server], which
    [supervaizer/parameter.py] defines and the sources do not include:
    the record "either updates the existing parameter definition's value
    or fails with ValidationError if name does not already exist", and a
    record flagged [is_environment] also writes the process
    environment. *)
Definition apply_record (r : update_record) : M world unit :=
  w <~ get;
  match definitions w !! rec_name r with
  | Some p =>
      exec modify (set_parameters_setup
                     (Some (<[rec_name r := set_value (rec_value r) p]> (definitions w))));
      if rec_is_environment r
      then modify (fun w => set_environ (<[rec_name r := rec_value r]> (environ w)) w)
      else ret tt
  | None =>
      raise (ValidationError (rec_name r) "Parameter not found in definitions")
  end.

(** Modelled from the spec: the records of a payload, applied "for each
    record" in the order of the payload (section 4.6). *)
Fixpoint apply_records (records : list update_record) : M world unit :=
  match records with
  | [] => ret tt
  | r :: rest => exec apply_record r; apply_records rest
  end.

(** Modelled from the spec: the validation of a payload against the
    parameter set.  Section 3: "a parameter named in an incoming update
    that does not already exist is an error, not an insert"; the error
    names the first such record. *)
Fixpoint validate_records (defs : gmap string ParameterDefinition)
    (records : list update_record) : result unit :=
  match records with
  | [] => Ok tt
  | r :: rest =>
      match defs !! rec_name r with
      | Some _ => validate_records defs rest
      | None => Raise (ValidationError (rec_name r) "Parameter not found in definitions")
      end
  end.

(** Modelled from the spec: [ParametersSetup.update_values_from_server]
    ([supervaizer/parameter.py], which the sources do not include).
    Section 3: the definitions are "updated only by a successful
    decrypt-and-validate round trip"; section 8: an update with an
    unknown name "fails with ValidationError and leaves existing
    parameter values unchanged".  So the payload is validated as a whole,
    and its records are applied only when every name is defined. *)
Definition update_values_from_server (records : list update_record) : M world unit :=
  w <~ get;
  match validate_records (definitions w) records with
  | Raise e => raise e
  | Ok _ => apply_records records
  end.

(** [Agent.update_parameters_from_server]. *)
Definition update_parameters_from_server (server : Server)
    (encrypted : option string) : M world unit :=
  w <~ get;
  if opt_str_truthy encrypted && bool_decide (is_Some (parameters_setup w)) then
    exec modify (set_server_encrypted_parameters encrypted);
    match decrypt server (default "" encrypted) with
    | Raise e => raise e
    | Ok decrypted =>
        match json_loads server decrypted with
        | Raise e => raise e
        | Ok records => update_values_from_server records
        end
    end
  else
    modify (fun w => set_logs (logs w ++ [(DEBUG, "[No encrypted parameters] for {self.name}")]) w).

(** The classes the spec files under "ValidationError": a [ValueError] or
    pydantic's subclass of it. *)
Definition is_validation_error (e : exn) : bool :=
  match e with
  | ValueError _ | ValidationError _ _ => true
  | _ => false
  end.

Definition unknown_parameter (name : string) : exn :=
  ValidationError name "Parameter not found in definitions".

(** The parameter set [{parameter1, parameter2}] of the agent fixture of
    [tests/test_agent.py]. *)
Definition test_definitions : gmap string ParameterDefinition :=
  <["parameter1" := {| name := "parameter1"; value := Some "value1";
                       description := None; is_environment := false |}]>
    (<["parameter2" := {| name := "parameter2"; value := Some "value2";
                          description := Some "desc2"; is_environment := false |}]> ∅).

Definition test_world : world :=
  {| parameters_setup := Some test_definitions;
     server_encrypted_parameters := None; environ := ∅; logs := [] |}.

(** A server whose [decrypt] yields a text that decodes to [records]. *)
Definition server_sending (records : list update_record) : Server :=
  {| decrypt := fun _ => Ok "decrypted"; json_loads := fun _ => Ok records |}.

(** A payload with a record for [parameter1] and then a record for a
    name that is not defined. *)
Definition mixed_payload : list update_record :=
  [ {| rec_name := "parameter1"; rec_value := "new_value1"; rec_is_environment := false |};
    {| rec_name := "invalid_parameter"; rec_value := "x"; rec_is_environment := false |} ].

(** The payload of the test: one record, for a name that is not
    defined. *)
Definition invalid_payload : list update_record :=
  [ {| rec_name := "invalid_parameter"; rec_value := "invalid_value1";
       rec_is_environment := false |} ].

End Parameters.

(* ===================================================================== *)
(** * The other methods of [agent.py] *)
(* ===================================================================== *)

Module AgentCalls.

Import Registry Agents.

(** [{k: v for k, v in field.items() if k != "type"}]. *)
Definition without_type (field : pydict) : pydict :=
  filter (fun kv => fst kv <> "type") field.

(** [AgentMethod.fields_definitions]: [if self.fields:] is false for
    [None] and for the empty list. *)
Definition fields_definitions (m : AgentMethod) : list pydict :=
  match fields m with
  | Some (field :: rest) => map without_type (field :: rest)
  | Some [] | None => []
  end.

(** [Agent.custom_methods_names]. *)
Definition custom_methods_names (self : Agent) : option (list string) :=
  if dict_truthy (custom (methods self))
  then Some (keys_of (custom (methods self)))
  else None.

(** [Agent.job_stop]. *)
Definition job_stop (modules : py_modules) (self : Agent)
    (params : gmap string pyobj) : M world JobResponse :=
  let method := method (Registry.job_stop (methods self)) in
  _execute modules method (ArgStatic <$> params).

(** [Agent.job_status]. *)
Definition job_status (modules : py_modules) (self : Agent)
    (params : gmap string pyobj) : M world JobResponse :=
  let method := method (Registry.job_status (methods self)) in
  _execute modules method (ArgStatic <$> params).

(** [Agent.chat]. *)
Definition chat (modules : py_modules) (self : Agent)
    (context message : string) : M world JobResponse :=
  match Registry.chat (methods self) with
  | None => raise (ValueError "Chat method not configured")
  | Some chat_method =>
      let method := method chat_method in
      let params : kwargs :=
        <["message" := ArgStatic (PyStr message)]>
          (<["context" := ArgStatic (PyStr context)]> ∅) in
      _execute modules method params
  end.

(** The first lines of [Agent.__init__]: the id handed on to the model,
    or the [ValueError]; [uuid] is [shortuuid.uuid(name=...)]. *)
Definition checked_agent_id (uuid : string -> string) (name : string)
    (id : option string) : result string :=
  let agent_id := if opt_str_truthy id then default "" id else uuid name in
  match id with
  | Some given =>
      if decide (given <> uuid name)
      then Raise (ValueError "Agent ID does not match")
      else Ok agent_id
  | None => Ok agent_id
  end.

(** What the first lines of [_execute] look up: the function named by
    the dotted path [action], if the path has a dot, the module can be
    imported and has the attribute. *)
Definition resolve (modules : py_modules) (action : string) : option callable :=
  match rsplit_dot action with
  | Some (module_name, func_name) =>
      match modules module_name with
      | Some module => module func_name
      | None => None
      end
  | None => None
  end.

(** A second module, [tools], whose function [table] returns a [dict]. *)
Definition tools_module (func_name : string) : option callable :=
  if decide (func_name = "table") then Some (fun _ => Returns (RetOther "dict"))
  else None.

Definition more_modules : py_modules :=
  fun module_name =>
    if decide (module_name = "tools") then Some tools_module
    else test_modules module_name.

(** An agent with a chat method and two custom methods. *)
Definition chatty_agent : Agent :=
  {| name := "agentName";
     methods := {| Registry.job_start := method_calling "control.completes" false;
                   Registry.job_stop := method_calling "control.completes" true;
                   Registry.job_status := method_calling "control.lingers" false;
                   Registry.chat := Some (method_calling "control.awaits" false);
                   custom := Some [("method1", method_calling "control.completes" false);
                                   ("method2", method_calling "control.fails" false)] |} |}.

End AgentCalls.

(* ===================================================================== *)
(** * The other members of [case.py] *)
(* ===================================================================== *)

Module CaseViews.

Import Cases.

(** [Case.uri]. *)
Definition uri (c : Case) : string := "case:" +:+ id c.

(** [Case.case_ref]. *)
Definition case_ref (c : Case) : string := job_id c +:+ "-" +:+ id c.

(** An optional attribute as a dictionary value: [None] stays [None]. *)
Definition py_opt {A} (inj : A -> pyobj) (x : option A) : pyobj :=
  match x with
  | Some a => inj a
  | None => PyNone
  end.

(** [CaseNodeUpdate.registration_info]. *)
Definition update_registration_info (u : CaseNodeUpdate) : pydict :=
  [ ("index", py_opt PyInt (index u));
    ("cost", py_opt PyFloat (cost u));
    ("payload", py_opt PyDict (payload u));
    ("is_final", PyBool (is_final u));
    ("question", py_opt PyDict (question u)) ].

(** The values of [CaseNoteType]. *)
Definition note_type_value (t : CaseNoteType) : string :=
  match t with
  | CHAT => "chat"
  | TRIGGER => "trigger"
  | NOTIFICATION => "notification"
  | VALIDATION => "validation"
  | DELIVERY => "delivery"
  | ERROR_NOTE => "error"
  | WARNING_NOTE => "warning"
  | INFO_NOTE => "info"
  end.

(** [CaseNode.registration_info]. *)
Definition node_registration_info (n : CaseNode) : pydict :=
  [ ("name", PyStr (node_name n));
    ("description", PyStr (node_description n));
    ("type", PyStr (note_type_value (node_type n))) ].

(** [[update.registration_info for update in self.updates]]. *)
Definition updates_registration_info (w : world) : list pydict :=
  omap (fun r => update_registration_info <$> heap w !! r) (updates (self w)).

(** [Case.registration_info]; [status_value] gives the [value] of a
    status, which [supervaizer/lifecycle.py] defines. *)
Definition registration_info (status_value : EntityStatus -> string) (w : world)
    : pydict :=
  [ ("case_id", PyStr (id (self w)));
    ("job_id", PyStr (job_id (self w)));
    ("case_ref", PyStr (case_ref (self w)));
    ("name", PyStr (case_name (self w)));
    ("description", PyStr (description (self w)));
    ("status", PyStr (status_value (status (self w))));
    ("nodes", PyList (map (fun n => PyDict (node_registration_info n)) (nodes (self w))));
    ("updates", PyList (map PyDict (updates_registration_info w)));
    ("total_cost", PyFloat (total_cost (self w)));
    ("final_delivery", py_opt PyDict (final_delivery (self w))) ].

(** The instance methods of a case, as a caller may invoke them. *)
Inductive case_call : Type :=
| DoUpdate (updateCaseNode : ref)
| DoHumanInput (updateCaseNode : ref) (message : string)
| DoResume
| DoClose (case_result : pydict) (final_cost : option float).

Definition run_call (c : case_call) : M world unit :=
  match c with
  | DoUpdate r => update r
  | DoHumanInput r message => human_input r message
  | DoResume => resume
  | DoClose case_result final_cost => close case_result final_cost
  end.

(** The update objects a call is handed. *)
Definition call_refs (c : case_call) : list ref :=
  match c with
  | DoUpdate r | DoHumanInput r _ => [r]
  | DoResume | DoClose _ _ => []
  end.

(** The world after a sequence of calls by a caller that catches what
    they raise and goes on. *)
Fixpoint after_calls (calls : list case_call) (w : world) : world :=
  match calls with
  | [] => w
  | c :: rest => after_calls rest (snd (run_call c w))
  end.

(** Two update objects differ at most in their index. *)
Definition same_but_index (u u' : CaseNodeUpdate) : Prop :=
  cost u' = cost u /\ name u' = name u /\ payload u' = payload u
  /\ is_final u' = is_final u /\ question u' = question u.

(** The terms that [calculated_cost] sums, in the order of the log:
    [update.cost or 0.0 for update in self.updates]. *)
Definition costs (w : world) : list float :=
  map (cost_or_zero (heap w)) (updates (self w)).

End CaseViews.

(* ===================================================================== *)
(** * Synchronising an agent with the server ([agent.py]) *)
(* ===================================================================== *)

Module AgentSync.

Import Parameters.

(** The two ways [get_agent_by] is called. *)
Inductive lookup_key : Type :=
| ByAgentId (agent_id : string)
| ByAgentSlug (agent_slug : string).

(** What [get_agent_by] returns: an [ApiSuccess] with its [detail] (a
    dictionary, or [None]), or anything else.  The entries that
    [update_agent_from_server] reads are strings. *)
Inductive api_result : Type :=
| ApiSuccess (detail : option (gmap string string))
| ApiFailure (message : string).

(** The Account collaborator, as far as the agent calls it. *)
Record Account : Type := {
  get_agent_by : lookup_key -> api_result
}.

(** The hosting server: its supervisor account, if any, and its keys. *)
Record HostServer : Type := {
  supervisor_account : option Account;
  key_owner : Server
}.

(** The attributes of the agent that synchronisation reads and writes;
    [parameters] holds the parameter store, the encrypted parameters, the
    process environment and the log. *)
Record agent_state : Type := {
  slug : string;
  server_agent_id : option string;
  server_agent_status : option string;
  server_agent_onboarding_status : option string;
  parameters : world
}.

Definition set_parameters (p : world) (a : agent_state) : agent_state :=
  {| slug := slug a; server_agent_id := server_agent_id a;
     server_agent_status := server_agent_status a;
     server_agent_onboarding_status := server_agent_onboarding_status a;
     parameters := p |}.

(** The three assignments of lines 430-436. *)
Definition set_server_attributes (agent_id status onboarding : option string)
    (a : agent_state) : agent_state :=
  {| slug := slug a; server_agent_id := agent_id;
     server_agent_status := status;
     server_agent_onboarding_status := onboarding;
     parameters := parameters a |}.

(** A method of the agent that works on the parameter store. *)
Definition on_parameters {A} (m : M world A) : M agent_state A :=
  fun a => let (r, p) := m (parameters a) in (r, set_parameters p a).

Definition log (level : log_level) (msg : string) : M agent_state unit :=
  on_parameters (modify (fun w => set_logs (logs w ++ [(level, msg)]) w)).

(** [agent_from_server.get(key) if agent_from_server else None]. *)
Definition detail_get (detail : option (gmap string string)) (key : string)
    : option string :=
  match detail with
  | Some d => d !! key
  | None => None
  end.

(** [str(x)] for an optional string. *)
Definition str_opt (x : option string) : string := default "None" x.

(** [Agent.update_agent_from_server]; the result tells whether the agent
    itself ([true]) or [None] ([false]) is returned. *)
Definition update_agent_from_server (server : HostServer) : M agent_state bool :=
  a <~ get;
  match supervisor_account server with
  | None => ret false
  | Some account =>
      let from_server :=
        if opt_str_truthy (server_agent_id a)
        then get_agent_by account (ByAgentId (default "" (server_agent_id a)))
        else get_agent_by account (ByAgentSlug (slug a)) in
      match from_server with
      | ApiFailure _ =>
          exec log ERROR "[Agent update_agent_from_server] Failed";
          ret false
      | ApiSuccess agent_from_server =>
          let from_server_id := detail_get agent_from_server "id" in
          if opt_str_truthy (server_agent_id a)
             && negb (bool_decide (server_agent_id a = from_server_id))
          then
            raise (ValueError ("Agent ID mismatch: " +:+ str_opt (server_agent_id a)
                               +:+ " != " +:+ str_opt from_server_id))
          else
            exec modify (set_server_attributes from_server_id
                           (detail_get agent_from_server "status")
                           (detail_get agent_from_server "onboarding_status"));
            exec (if bool_decide (detail_get agent_from_server "onboarding_status"
                                  = Some "configured")
                  then
                    exec log DEBUG "[Agent configured] getting encrypted parameters";
                    on_parameters
                      (update_parameters_from_server (key_owner server)
                         (detail_get agent_from_server "parameters_encrypted"))
                  else log DEBUG "[Agent not onboarded] skipping encrypted parameters");
            ret true
      end
  end.

(** An account that knows one agent, registered as [detail]. *)
Definition account_knowing (detail : gmap string string) : Account :=
  {| get_agent_by := fun _ => ApiSuccess (Some detail) |}.

(** An agent that has not met the server yet, with the parameters of the
    test fixture. *)
Definition new_agent_state : agent_state :=
  {| slug := "agentname"; server_agent_id := None; server_agent_status := None;
     server_agent_onboarding_status := None; parameters := test_world |}.

(** The same agent once the server has given it the id [agent-1]. *)
Definition known_agent_state : agent_state :=
  {| slug := "agentname"; server_agent_id := Some "agent-1";
     server_agent_status := Some "active";
     server_agent_onboarding_status := Some "configured";
     parameters := test_world |}.

(** The registration of that agent while it is being set up. *)
Definition pending_detail : gmap string string :=
  <["id" := "agent-1"]> (<["status" := "active"]>
    (<["onboarding_status" := "pending"]>
       (<["parameters_encrypted" := "encrypted"]> ∅))).

(** A server whose key yields a text that is not JSON. *)
Definition undecodable_server : Server :=
  {| decrypt := fun _ => Ok "not json";
     json_loads := fun _ => Raise (ValueError "Expecting value") |}.

(** A hosting server registered with [account], if any. *)
Definition host_with (account : option Account) : HostServer :=
  {| supervisor_account := account; key_owner := server_sending [] |}.

(** An account that cannot be reached. *)
Definition unreachable_account : Account :=
  {| get_agent_by := fun _ => ApiFailure "unreachable" |}.

(** The registration of another agent. *)
Definition other_detail : gmap string string :=
  <["id" := "agent-2"]> pending_detail.

End AgentSync.

(* ===================================================================== *)
(** * The job listings of [routes.py] *)
(* ===================================================================== *)

Module Routes.

Import Agents.

(** The attributes of a registered [Job] that the listings read. *)
Record Job : Type := {
  id : string;
  status : EntityStatus;
  payload : option pydict
}.

(** Python's normalisation of a slice bound for a sequence of [len]
    items: a negative bound counts from the end, and every bound is
    clipped to the sequence. *)
Definition slice_index (len i : Z) : Z :=
  if (i <? 0)%Z then Z.max (len + i) 0 else Z.min i len.

(** [xs[start:stop]]. *)
Definition py_slice {A} (xs : list A) (start stop : Z) : list A :=
  let len := Z.of_nat (length xs) in
  let lo := slice_index len start in
  let hi := slice_index len stop in
  take (Z.to_nat (hi - lo)) (drop (Z.to_nat lo) xs).

(** [if status: jobs = [job for job in jobs if job.status == status]];
    a member of [EntityStatus] is truthy, so the test tells whether a
    status was given. *)
Definition filter_status (st : option EntityStatus) (jobs : list Job) : list Job :=
  match st with
  | Some s => filter (fun job => status job = s) jobs
  | None => jobs
  end.

(** The [JobResponse] built for a listed job; [status_value] gives the
    [value] of a status. *)
Definition job_response (status_value : EntityStatus -> string) (job : Job)
    : JobResponse :=
  Build_JobResponse (id job) (status job)
    ("Job " +:+ id job +:+ " status: " +:+ status_value (status job))
    (payload job) None.

(** [get_agent_jobs] of [create_agent_route], on the values of
    [Jobs().get_agent_jobs(agent.name)]. *)
Definition get_agent_jobs (status_value : EntityStatus -> string)
    (jobs : list Job) (skip limit : Z) (st : option EntityStatus)
    : list JobResponse :=
  let jobs := filter_status st jobs in
  let jobs := py_slice jobs skip (skip + limit) in
  job_response status_value <$> jobs.

(** [get_all_jobs] of [create_default_routes]; [jobs_by_agent] gives,
    for each agent name, the values of its dictionary of jobs. *)
Definition get_all_jobs (status_value : EntityStatus -> string)
    (jobs_by_agent : gmap string (list Job)) (skip limit : Z)
    (st : option EntityStatus) : gmap string (list JobResponse) :=
  omap (fun agent_jobs =>
          let filtered_jobs := filter_status st agent_jobs in
          let filtered_jobs := py_slice filtered_jobs skip (skip + limit) in
          match filtered_jobs with
          | [] => None
          | _ => Some (job_response status_value <$> filtered_jobs)
          end)
       jobs_by_agent.

(** Three jobs of one agent, and a registry holding them. *)
Definition listed_jobs : list Job :=
  [ {| id := "job-1"; status := COMPLETED; payload := None |};
    {| id := "job-2"; status := IN_PROGRESS; payload := None |};
    {| id := "job-3"; status := COMPLETED; payload := None |} ].

Definition listed_registry : gmap string (list Job) :=
  <["agentname" := listed_jobs]> (<["idle" := []]> ∅).

End Routes.

(* ===================================================================== *)
(** * Part II: theorems *)
(* ===================================================================== *)

Open Scope list_scope.

(** ** The lifecycle engine *)

Section LifecycleFacts.

Import Engine.

Lemma apply_row st ev target : table_row st ev target -> apply st ev = Ok target.
Proof. destruct 1; reflexivity. Qed.

Lemma apply_ok_row st ev target : apply st ev = Ok target -> table_row st ev target.
Proof.
  destruct st, ev; cbn; intros Heq; inversion Heq; subst; constructor.
Qed.

Lemma apply_no_row st ev :
  (forall target, ~ table_row st ev target) ->
  apply st ev = Raise (TransitionError st ev).
Proof.
  intros Hno. destruct (apply st ev) as [target|e] eqn:Heq.
  - exfalso. apply (Hno target). now apply apply_ok_row.
  - revert Heq. unfold apply. destruct (lookup_transition _ _ _); congruence.
Qed.

Lemma terminal_no_row st ev target : is_terminal st = true -> ~ table_row st ev target.
Proof. intros Hterm Hrow. destruct Hrow; discriminate Hterm. Qed.

(** C1. [apply] is a function of (status, event) that returns the target
    of the table row for that pair when there is one (each of the seven
    rows succeeds, and nothing else does), and otherwise fails with a
    [TransitionError] that carries both the status and the event; in
    particular every pair whose status is COMPLETED, FAILED or CANCELLED
    fails. *)
Theorem apply_matches_transition_table :
  (apply STOPPED START_WORK = Ok IN_PROGRESS
   /\ apply IN_PROGRESS INPUT_REQUESTED = Ok AWAITING
   /\ apply AWAITING INPUT_RECEIVED = Ok IN_PROGRESS
   /\ apply IN_PROGRESS SUCCESSFULLY_DONE = Ok COMPLETED
   /\ apply IN_PROGRESS FAILED_EVENT = Ok FAILED
   /\ apply IN_PROGRESS CANCEL_REQUESTED = Ok CANCELLING
   /\ apply CANCELLING CANCELLED_EVENT = Ok CANCELLED)
  /\ (forall st ev target, apply st ev = Ok target <-> table_row st ev target)
  /\ (forall st ev, (forall target, ~ table_row st ev target) ->
        apply st ev = Raise (TransitionError st ev))
  /\ (forall st ev, st = COMPLETED \/ st = FAILED \/ st = CANCELLED ->
        apply st ev = Raise (TransitionError st ev)).
Proof.
  split; [repeat split |].
  split; [| split].
  - intros st ev target. split; [apply apply_ok_row | apply apply_row].
  - apply apply_no_row.
  - intros st ev Hterm. apply apply_no_row. intros target.
    apply terminal_no_row. destruct Hterm as [-> | [-> | ->]]; reflexivity.
Qed.

End LifecycleFacts.

(** ** Strings *)

Section StringFacts.

Lemma app_cons (c : ascii) (s t : string) : String c s +:+ t = String c (s +:+ t).
Proof. reflexivity. Qed.

Lemma app_empty_l (s : string) : "" +:+ s = s.
Proof. reflexivity. Qed.

Lemma app_empty_r (s : string) : s +:+ "" = s.
Proof.
  induction s as [|c s IH]; [reflexivity |]. rewrite app_cons. now f_equal.
Qed.

Lemma app_assoc_s (s1 s2 s3 : string) : (s1 +:+ s2) +:+ s3 = s1 +:+ (s2 +:+ s3).
Proof.
  induction s1 as [|c s1 IH]; [reflexivity |]. rewrite !app_cons. now f_equal.
Qed.

Lemma length_app_s (s1 s2 : string) :
  String.length (s1 +:+ s2) = (String.length s1 + String.length s2)%nat.
Proof.
  induction s1 as [|c s1 IH]; [reflexivity |]. rewrite app_cons. cbn. now f_equal.
Qed.

End StringFacts.

(** ** The matcher computes the language of the pattern *)

Section MatcherFacts.

Import Re.

Lemma star_computes step r :
  computes step r ->
  forall fuel pos s k, (String.length s <= fuel)%nat ->
    star step fuel pos s k = true <->
    exists pos' s', lang (Star r) pos s pos' s' /\ k pos' s' = true.
Proof.
  unfold computes. intros Hstep.
  induction fuel as [|fuel IH]; intros pos s k Hlen; cbn.
  - split.
    + intros Hk. exists pos, s. split; [constructor | exact Hk].
    + intros (pos' & s' & Hlang & Hk). inversion Hlang; subst; [exact Hk | lia].
  - rewrite orb_true_iff, Hstep. split.
    + intros [(pos1 & s1 & Hr & Hcont) | Hk].
      * apply andb_true_iff in Hcont as [Hlt Hcont]. apply Nat.ltb_lt in Hlt.
        apply IH in Hcont as (pos' & s' & Hstar & Hk); [| lia].
        exists pos', s'. split; [| exact Hk]. econstructor 7; eauto.
      * exists pos, s. split; [constructor | exact Hk].
    + intros (pos' & s' & Hlang & Hk). inversion Hlang; subst.
      * now right.
      * left. eexists _, _. split; [eassumption |].
        apply andb_true_iff. split; [now apply Nat.ltb_lt |].
        apply IH; [lia |]. eauto.
Qed.

Lemma rmatch_computes r : computes (rmatch r) r.
Proof.
  induction r as [| | c | ranges | r1 IH1 r2 IH2 | r IH | r IH];
    unfold computes in *; intros pos s k; cbn.
  - rewrite andb_true_iff, Nat.eqb_eq. split.
    + intros [-> Hk]. exists 0%nat, s. split; [constructor | exact Hk].
    + intros (pos' & s' & Hlang & Hk). inversion Hlang; subst. now split.
  - rewrite andb_true_iff. split.
    + intros [Heol Hk]. exists pos, s. split; [now constructor | exact Hk].
    + intros (pos' & s' & Hlang & Hk). inversion Hlang; subst. now split.
  - destruct s as [|c' s]; [split; [discriminate | intros (? & ? & Hlang & _); inversion Hlang] |].
    destruct (decide (c' = c)) as [-> | Hne].
    + split.
      * intros Hk. eexists _, _. split; [constructor | exact Hk].
      * intros (pos' & s' & Hlang & Hk). inversion Hlang; subst. exact Hk.
    + split; [discriminate |].
      intros (pos' & s' & Hlang & Hk). inversion Hlang; subst. congruence.
  - destruct s as [|c' s]; [split; [discriminate | intros (? & ? & Hlang & _); inversion Hlang] |].
    destruct (in_class ranges c') eqn:Hin.
    + split.
      * intros Hk. eexists _, _. split; [now constructor | exact Hk].
      * intros (pos' & s' & Hlang & Hk). inversion Hlang; subst. exact Hk.
    + split; [discriminate |].
      intros (pos' & s' & Hlang & Hk). inversion Hlang; subst. congruence.
  - rewrite IH1. split.
    + intros (pos1 & s1 & H1 & Hcont). apply IH2 in Hcont as (pos2 & s2 & H2 & Hk).
      exists pos2, s2. split; [econstructor; eauto | exact Hk].
    + intros (pos2 & s2 & Hlang & Hk). inversion Hlang; subst.
      eexists _, _. split; [eassumption |]. apply IH2. eauto.
  - apply star_computes; [exact IH | lia].
  - rewrite IH. split.
    + intros (pos1 & s1 & H1 & Hcont).
      apply (star_computes _ _ IH) in Hcont as (pos2 & s2 & H2 & Hk); [| lia].
      exists pos2, s2. split; [econstructor; eauto | exact Hk].
    + intros (pos2 & s2 & Hlang & Hk). inversion Hlang; subst.
      eexists _, _. split; [eassumption |].
      apply (star_computes _ _ IH); [lia |]. eauto.
Qed.

(** [re.match] succeeds exactly when the pattern consumes some prefix of
    the subject, from offset 0. *)
Lemma re_match_lang pattern s :
  re_match pattern s = true <-> exists pos' s', lang pattern 0 s pos' s'.
Proof.
  unfold re_match. pose proof (rmatch_computes pattern) as Hc.
  unfold computes in Hc. rewrite Hc. split.
  - intros (pos' & s' & H & _). eauto.
  - intros (pos' & s' & H). eauto.
Qed.

End MatcherFacts.

(** ** The slug pattern *)

Section SlugFacts.

Import Re Registry.

Lemma at_eol_spec s : at_eol s = true <-> s = "" \/ s = String newline "".
Proof.
  destruct s as [|c [|c' s]]; cbn.
  - split; [now left | reflexivity].
  - destruct (decide (c = newline)) as [-> | Hne].
    + split; [now right | reflexivity].
    + split; [discriminate | intros [H | H]; congruence].
  - split; [discriminate | intros [H | H]; congruence].
Qed.

Lemma lang_letters_inv r pos s pos' s' :
  lang r pos s pos' s' -> r = Star lower_or_digit ->
  exists w, all_lower_or_digit w = true /\ s = w +:+ s'.
Proof.
  induction 1 as [| | | | | r0 pos s | r0 pos s pos1 s1 pos2 s2 H1 _ Hlt H2 IH |];
    intros Hr; try discriminate.
  - exists "". split; reflexivity.
  - injection Hr as ->. destruct (IH eq_refl) as (w & Hw & ->).
    inversion H1; subst. exists (String c w). split; [| reflexivity].
    cbn. apply andb_true_iff. split; assumption.
Qed.

Lemma lang_letters w : all_lower_or_digit w = true ->
  forall pos s', exists pos', lang (Star lower_or_digit) pos (w +:+ s') pos' s'.
Proof.
  induction w as [|c w IH]; intros Hw pos s'.
  - exists pos. constructor.
  - cbn in Hw. apply andb_true_iff in Hw as [Hc Hw].
    destruct (IH Hw (S pos) s') as (pos' & Hlang). exists pos'.
    rewrite app_cons. econstructor 7; [now constructor | cbn; lia | exact Hlang].
Qed.

Lemma lang_word_inv pos s pos' s' :
  lang (Plus lower_or_digit) pos s pos' s' -> exists w, is_word w /\ s = w +:+ s'.
Proof.
  intros Hlang. inversion Hlang as [| | | | | | | r0 p0 s0 pos1 s1 p2 s2 H1 H2]; subst.
  apply lang_letters_inv in H2 as (w & Hw & ->); [| reflexivity].
  inversion H1; subst. exists (String c w). split; [| reflexivity].
  split; [discriminate |]. cbn. apply andb_true_iff. split; assumption.
Qed.

Lemma lang_word w : is_word w ->
  forall pos s', exists pos', lang (Plus lower_or_digit) pos (w +:+ s') pos' s'.
Proof.
  intros [Hne Hw] pos s'. destruct w as [|c w]; [congruence |].
  cbn in Hw. apply andb_true_iff in Hw as [Hc Hw].
  destruct (lang_letters w Hw (S pos) s') as (pos' & Hlang). exists pos'.
  rewrite app_cons. econstructor; [now constructor | exact Hlang].
Qed.

Lemma lang_groups_inv r pos s pos' s' :
  lang r pos s pos' s' -> r = Star hyphen_group ->
  exists t, hyphenated t /\ s = t +:+ s'.
Proof.
  induction 1 as [| | | | | r0 pos s | r0 pos s pos1 s1 pos2 s2 H1 _ Hlt H2 IH |];
    intros Hr; try discriminate.
  - exists "". split; [constructor | reflexivity].
  - injection Hr as ->. destruct (IH eq_refl) as (t & Ht & ->).
    inversion H1 as [| | | | r1 r2 p0 s0 p1 s3 p2 s4 Hhy Hw | | |]; subst.
    inversion Hhy; subst.
    apply lang_word_inv in Hw as (w & Hw & ->).
    exists ("-" +:+ w +:+ t). split; [now constructor |].
    now rewrite !app_assoc_s.
Qed.

Lemma lang_groups t : hyphenated t ->
  forall pos s', exists pos', lang (Star hyphen_group) pos (t +:+ s') pos' s'.
Proof.
  induction 1 as [| w t Hw Ht IH]; intros pos s'.
  - exists pos. constructor.
  - destruct (lang_word w Hw (S pos) (t +:+ s')) as (pos1 & H1).
    destruct (IH pos1 s') as (pos' & H2). exists pos'.
    rewrite !app_assoc_s, app_cons, app_empty_l.
    econstructor 7; [| | exact H2].
    + econstructor; [constructor | exact H1].
    + cbn. rewrite !length_app_s. lia.
Qed.

(** The matches of the pattern: a slug, or a slug followed by one
    newline. *)
Theorem slug_pattern_matches key :
  re_match slug_pattern key = true <->
  is_slug key \/ exists k, is_slug k /\ key = k +:+ String newline "".
Proof.
  rewrite re_match_lang. split.
  - intros (pos' & s' & Hlang). unfold slug_pattern in Hlang.
    repeat match goal with
           | H : lang (Cat _ _) _ _ _ _ |- _ => inversion H; subst; clear H
           | H : lang Bol _ _ _ _ |- _ => inversion H; subst; clear H
           | H : lang Eol _ _ _ _ |- _ => inversion H; subst; clear H
           end.
    match goal with
    | H : lang (Plus _) _ _ _ _ |- _ => apply lang_word_inv in H as (w & Hw & ->)
    end.
    match goal with
    | H : lang (Star _) _ _ _ _ |- _ =>
        apply lang_groups_inv in H as (t & Ht & ->); [| reflexivity]
    end.
    match goal with
    | H : at_eol _ = true |- _ => apply at_eol_spec in H as [-> | ->]
    end.
    + left. exists w, t. now rewrite app_empty_r.
    + right. exists (w +:+ t). split; [now exists w, t |].
      now rewrite app_assoc_s.
  - assert (Hbody : forall w t tail, is_word w -> hyphenated t -> at_eol tail = true ->
              exists pos' s', lang slug_pattern 0 (w +:+ t +:+ tail) pos' s').
    { intros w t tail Hw Ht Htail.
      destruct (lang_word w Hw 0%nat (t +:+ tail)) as (pos1 & H1).
      destruct (lang_groups t Ht pos1 tail) as (pos2 & H2).
      exists pos2, tail. unfold slug_pattern.
      econstructor; [constructor |].
      econstructor; [exact H1 |].
      econstructor; [exact H2 | now constructor]. }
    intros [(w & t & Hw & Ht & ->) | (k & (w & t & Hw & Ht & ->) & ->)].
    + rewrite <- (app_empty_r t). now apply Hbody.
    + rewrite app_assoc_s. now apply Hbody.
Qed.

End SlugFacts.

(** ** Validation of the custom method keys *)

Section RegistryFacts.

Import Re Registry.

Lemma slug_chars_app s t : slug_chars (s +:+ t) = slug_chars s && slug_chars t.
Proof.
  induction s as [|c s IH]; [reflexivity |].
  rewrite app_cons. cbn [slug_chars]. rewrite IH. now rewrite andb_assoc.
Qed.

Lemma word_slug_chars w : all_lower_or_digit w = true -> slug_chars w = true.
Proof.
  induction w as [|c w IH]; [reflexivity |]. cbn [all_lower_or_digit slug_chars].
  intros [Hc Hw]%andb_true_iff. rewrite Hc, (IH Hw). reflexivity.
Qed.

Lemma hyphenated_slug_chars t : hyphenated t -> slug_chars t = true.
Proof.
  induction 1 as [| w t [_ Hw] _ IH]; [reflexivity |].
  rewrite !slug_chars_app, (word_slug_chars w Hw), IH. reflexivity.
Qed.

(** A slug holds nothing but lowercase letters, digits and hyphens. *)
Lemma is_slug_chars s : is_slug s -> slug_chars s = true.
Proof.
  intros (w & t & [_ Hw] & Ht & ->).
  now rewrite slug_chars_app, (word_slug_chars w Hw), (hyphenated_slug_chars t Ht).
Qed.

(** What one key has to satisfy: the pattern (which a slug followed by a
    newline also matches) and the length bound. *)
Lemma check_key_ok key :
  check_key key = Ok tt <->
  (is_slug key \/ exists k, is_slug k /\ key = k +:+ String newline "")
  /\ (String.length key <= 50)%nat.
Proof.
  unfold check_key. rewrite <- slug_pattern_matches.
  destruct (re_match slug_pattern key); cbn [negb].
  - destruct (50 <? String.length key)%nat eqn:Hlen.
    + apply Nat.ltb_lt in Hlen. split; [discriminate | intros [_ ?]; lia].
    + apply Nat.ltb_ge in Hlen. split; [now split | reflexivity].
  - split; [discriminate | intros [? _]; discriminate].
Qed.

(** A failing key is reported with the rule it broke: the pattern first,
    then the length. *)
Lemma check_key_raise key e :
  check_key key = Raise e ->
  (re_match slug_pattern key = false /\ e = ValueError (not_a_slug_message key))
  \/ (re_match slug_pattern key = true /\ (50 < String.length key)%nat
      /\ e = ValueError (too_long_message key)).
Proof.
  unfold check_key. destruct (re_match slug_pattern key); cbn [negb].
  - destruct (50 <? String.length key)%nat eqn:Hlen; [| discriminate].
    apply Nat.ltb_lt in Hlen. intros [= <-]. right. now repeat split.
  - intros [= <-]. now left.
Qed.

Lemma check_keys_ok keys :
  check_keys keys = Ok tt <-> Forall accepted_key keys.
Proof.
  induction keys as [|key keys IH]; cbn.
  - split; [constructor | reflexivity].
  - rewrite Forall_cons. unfold accepted_key at 1.
    destruct (check_key key) as [[]|e].
    + rewrite IH. tauto.
    + split; [discriminate | intros [? _]; discriminate].
Qed.

(** The loop stops at the first key that fails: the keys before it are
    fine and the error is the one of that key. *)
Lemma check_keys_raise keys e :
  check_keys keys = Raise e ->
  exists before key after,
    keys = (before ++ key :: after)%list /\ Forall accepted_key before
    /\ check_key key = Raise e.
Proof.
  induction keys as [|key keys IH]; cbn; [discriminate |].
  destruct (check_key key) as [[]|e'] eqn:Hkey.
  - intros (before & k & after & -> & Hbefore & Hk)%IH.
    exists (key :: before), k, after. repeat split; [| exact Hk].
    constructor; assumption.
  - intros [= <-]. exists [], key, keys. repeat split; [constructor | exact Hkey].
Qed.

Lemma validate_ok value :
  validate_custom_method_keys value = Ok value <-> Forall accepted_key (keys_of value).
Proof.
  unfold validate_custom_method_keys.
  destruct (dict_truthy value) eqn:Htruthy.
  - rewrite <- check_keys_ok. destruct (check_keys (keys_of value)) as [[]|e].
    + tauto.
    + split; discriminate.
  - split; [| reflexivity]. intros _.
    destruct value as [[|kv d]|]; cbn in *; try discriminate; constructor.
Qed.

(** Construction succeeds exactly when every key passes [check_key]: each
    key is a slug, or a slug followed by one newline, and is at most 50
    characters long.  No custom dictionary, or an empty one, passes. *)
Theorem AgentMethodsModel_accepts js jp jst ch value :
  (exists m, AgentMethodsModel js jp jst ch value = Ok m) <->
  Forall (fun key =>
            (is_slug key \/ exists k, is_slug k /\ key = k +:+ String newline "")
            /\ (String.length key <= 50)%nat) (keys_of value).
Proof.
  rewrite <- (Forall_iff accepted_key) by (intros key; apply check_key_ok).
  rewrite <- validate_ok. unfold AgentMethodsModel.
  destruct (validate_custom_method_keys value) as [v|e] eqn:Hv.
  - assert (v = value) as ->.
    { revert Hv. unfold validate_custom_method_keys.
      destruct (dict_truthy value); [destruct (check_keys _) |]; congruence. }
    split; [reflexivity | eauto].
  - split; [| discriminate]. intros [m Hm]. destruct e; discriminate.
Qed.

(** When construction fails, it fails with pydantic's [ValidationError]
    for the field [custom]; the message is that of the first key of the
    dictionary that breaks a rule, quotes that key, and tells the rule. *)
Theorem AgentMethodsModel_rejects js jp jst ch value e :
  AgentMethodsModel js jp jst ch value = Raise e ->
  exists before key after,
    keys_of value = (before ++ key :: after)%list /\ Forall accepted_key before
    /\ ((re_match slug_pattern key = false
         /\ e = ValidationError "custom" (not_a_slug_message key))
        \/ (re_match slug_pattern key = true /\ (50 < String.length key)%nat
            /\ e = ValidationError "custom" (too_long_message key))).
Proof.
  unfold AgentMethodsModel, validate_custom_method_keys.
  destruct (dict_truthy value); [| discriminate].
  destruct (check_keys (keys_of value)) as [[]|e'] eqn:Hkeys; [discriminate |].
  apply check_keys_raise in Hkeys as (before & key & after & Heq & Hbefore & Hkey).
  intros He. exists before, key, after. split; [exact Heq |]. split; [exact Hbefore |].
  apply check_key_raise in Hkey as [[Hre ->] | (Hre & Hlen & ->)]; injection He as <-.
  - left. now split.
  - right. now repeat split.
Qed.

(** The keys of [test_custom_method_key_validation] and of section 8. *)
Example valid_keys_accepted :
  Forall (fun key => exists m, model_with_key key = Ok m)
    ["backup"; "health-check"; "sync-data"; "test123"; "method-1"; "a";
     "very-long-method-name-that-is-still-valid"].
Proof. repeat constructor; eexists; vm_compute; reflexivity. Qed.

Example invalid_keys_rejected :
  Forall (fun key => model_with_key key
                     = Raise (ValidationError "custom" (not_a_slug_message key)))
    ["method_with_underscore"; "method with spaces"; "method@special";
     "Method-With-Caps"; "method.with.dots"; "-starts-with-hyphen";
     "ends-with-hyphen-"; "double--hyphen"; "-lead"; "trail-"].
Proof. repeat constructor. Qed.

Example long_key_rejected :
  let key := "aaaaaaaaaaaaaaaaaaaaaaaaaaaaaaaaaaaaaaaaaaaaaaaaaaa" in
  String.length key = 51%nat
  /\ model_with_key key = Raise (ValidationError "custom" (too_long_message key)).
Proof. split; reflexivity. Qed.

(** C7, at the key ["a\n"]: the key is not a slug (it holds a line feed),
    and yet [AgentMethodsModel(..., custom={"a\n": basic_method})] is
    constructed, because [$] also matches just before a final newline. *)
Theorem key_with_trailing_newline_accepted :
  ~ is_slug key_with_newline
  /\ (String.length key_with_newline <= 50)%nat
  /\ re_match slug_pattern key_with_newline = true
  /\ model_with_key key_with_newline
     = Ok {| job_start := basic_method; job_stop := basic_method;
             job_status := basic_method; chat := None;
             custom := Some [(key_with_newline, basic_method)] |}.
Proof.
  split; [| repeat split; [cbn; lia]].
  intros Hslug. apply is_slug_chars in Hslug. discriminate Hslug.
Qed.

End RegistryFacts.

(** ** Cases: the log of updates *)

Section CaseFacts.

Import Engine Cases.

(** One appending call: it succeeds, writes the next index into the
    object it was given, and stores the reference at the end of the
    log. *)
Lemma run_append_spec c w :
  exists w',
    run_append c w = (Ok tt, w')
    /\ heap w' = alter (set_index (next_index w)) (appended c) (heap w)
    /\ updates (self w') = updates (self w) ++ [appended c].
Proof.
  destruct c as [r | r message]; eexists; (split; [reflexivity |]); split; reflexivity.
Qed.

Lemma run_appends_spec calls : forall w,
  exists w',
    run_appends calls w = (Ok tt, w')
    /\ updates (self w') = updates (self w) ++ map appended calls
    /\ (forall r, r ∉ map appended calls -> heap w' !! r = heap w !! r)
    /\ (NoDup (map appended calls) ->
        forall i r, map appended calls !! i = Some r ->
          heap w' !! r
          = set_index (Z.of_nat (length (updates (self w)) + i) + 1) <$> heap w !! r).
Proof.
  induction calls as [|c calls IH]; intros w.
  - exists w. split; [reflexivity |]. split; [now rewrite app_nil_r |].
    split; [reflexivity |]. intros _ i r Hi. discriminate Hi.
  - destruct (run_append_spec c w) as (w1 & Hrun1 & Hheap1 & Hupd1).
    destruct (IH w1) as (w' & Hrun & Hupd & Hframe & Hidx).
    exists w'. split; [| split; [| split]].
    + cbn [run_appends]. unfold bind. now rewrite Hrun1.
    + rewrite Hupd, Hupd1. cbn [map]. now rewrite <- app_assoc.
    + intros r Hr. cbn [map] in Hr. apply not_elem_of_cons in Hr as [Hne Hr].
      rewrite (Hframe r Hr), Hheap1. now apply lookup_alter_ne.
    + cbn [map]. intros [Hfresh Hnodup]%NoDup_cons [|i] r Hi; cbn in Hi.
      * injection Hi as <-. rewrite (Hframe _ Hfresh), Hheap1, lookup_alter_eq.
        unfold next_index. now rewrite Nat.add_0_r.
      * rewrite (Hidx Hnodup i r Hi), Hheap1, Hupd1, length_app. cbn [length].
        rewrite lookup_alter_ne.
        -- do 3 f_equal. lia.
        -- intros <-. apply Hfresh. eapply list_elem_of_lookup_2, Hi.
Qed.

(** C4, amended.  Any sequence of [update] and [human_input] calls on
    pairwise distinct update objects succeeds and appends them in order;
    the object appended at position [j] of the log (the previous length
    plus its rank in the sequence) then records the index [j + 1],
    whatever the objects held before, a caller-supplied index included.
    On a case whose log was empty, the [i]-th appended update has index
    [i + 1]. *)
Theorem appended_updates_indexed w calls :
  NoDup (map appended calls) ->
  (forall r, r ∈ map appended calls -> is_Some (heap w !! r)) ->
  exists w',
    run_appends calls w = (Ok tt, w')
    /\ updates (self w') = updates (self w) ++ map appended calls
    /\ forall i, (i < length calls)%nat ->
         recorded_index w' (length (updates (self w)) + i)
         = Some (Z.of_nat (length (updates (self w)) + i) + 1).
Proof.
  intros Hnodup Hlive.
  destruct (run_appends_spec calls w) as (w' & Hrun & Hupd & _ & Hidx).
  exists w'. split; [exact Hrun |]. split; [exact Hupd |].
  intros i Hi. unfold recorded_index.
  destruct (lookup_lt_is_Some_2 (map appended calls) i) as [r Hr];
    [now rewrite length_map |].
  rewrite Hupd, lookup_app_r, Nat.add_comm, Nat.add_sub by lia.
  rewrite Nat.add_comm, Hr. cbn.
  rewrite (Hidx Hnodup i r Hr).
  destruct (Hlive r) as [u Hu]; [eapply list_elem_of_lookup_2, Hr |].
  rewrite Hu. reflexivity.
Qed.

(** Two distinct objects, one of them with a caller-supplied index:
    an [update] and then a [human_input] on a freshly started case. *)
Lemma appended_updates_indexed_witness :
  exists w',
    run_appends [CallUpdate 0%nat; CallHumanInput 1%nat "yes"] (started_world two_updates)
    = (Ok tt, w')
    /\ updates (self w')
       = updates (self (started_world two_updates)) ++ [0%nat; 1%nat]
    /\ forall i, (i < 2)%nat ->
         recorded_index w' (length (updates (self (started_world two_updates))) + i)
         = Some (Z.of_nat (length (updates (self (started_world two_updates))) + i) + 1).
Proof.
  apply (appended_updates_indexed (started_world two_updates)
           [CallUpdate 0%nat; CallHumanInput 1%nat "yes"]).
  - apply (bool_decide_eq_true_1 (NoDup [0%nat; 1%nat])). vm_compute. reflexivity.
  - intros r Hr. cbn in Hr.
    apply elem_of_cons in Hr as [-> | Hr]; [vm_compute; eauto |].
    apply elem_of_cons in Hr as [-> | Hr]; [vm_compute; eauto |].
    now apply elem_of_nil in Hr.
Defined.

(** C4, as stated, fails when one object is appended twice: the log is
    [[u, u]], both entries are the same object, and the index recorded
    at position 0 is 2, not 1. *)
Lemma same_update_appended_twice :
  exists w',
    run_appends [CallUpdate 0%nat; CallUpdate 0%nat] (started_world one_update)
    = (Ok tt, w')
    /\ updates (self (started_world one_update)) = []
    /\ updates (self w') = [0%nat; 0%nat]
    /\ recorded_index w' 0 = Some 2
    /\ recorded_index w' 0 <> Some (Z.of_nat 0 + 1)
    /\ recorded_index w' 1 = Some 2.
Proof.
  eexists. split; [reflexivity |]. repeat split. discriminate.
Qed.

(** [close] on a case in progress: it succeeds; the world it leaves has
    one more object, the final update, which is not in the log. *)
Lemma close_in_progress w case_result final_cost :
  status (self w) = IN_PROGRESS ->
  let r := fresh (dom (heap w)) in
  let final :=
    set_index (next_index w)
      (new_CaseNodeUpdate None None (Some case_result) true None None) in
  exists w',
    close case_result final_cost w = (Ok tt, w')
    /\ heap w' = <[r := final]> (heap w)
    /\ self w'
       = set_finished_at (Some (clock w))
           (set_final_delivery (Some case_result)
              (set_status COMPLETED
                 (set_total_cost
                    (if opt_float_truthy final_cost
                     then default 0%float final_cost
                     else calculated_cost w) (self w))))
    /\ account w' = account w ++ [SentUpdateCase (self w') r (Some final)]
    /\ logs w' = logs w ++ [(INFO, "[Close case]")]
    /\ clock w' = clock w.
Proof.
  intros Hst r final. subst r final.
  destruct w as [h [i j n d st nd ups tc fd fa] acc lg clk].
  cbn [self status heap] in *. subst st.
  set (r := fresh (dom h)).
  set (final := set_index _ _).
  assert (Hfinal : alter (set_index (Z.of_nat (length ups) + 1)) r
                     (<[r := new_CaseNodeUpdate None None (Some case_result) true None None]> h)
                   = <[r := final]> h).
  { unfold final, next_index. cbn [self updates].
    now rewrite alter_insert_eq. }
  set (c := set_finished_at (Some clk)
              (set_final_delivery (Some case_result)
                 (set_status COMPLETED
                    (set_total_cost
                       (if opt_float_truthy final_cost
                        then default 0%float final_cost
                        else calculated_cost
                               {| heap := h;
                                  self := {| id := i; job_id := j; case_name := n;
                                             description := d; status := IN_PROGRESS;
                                             nodes := nd; updates := ups;
                                             total_cost := tc; final_delivery := fd;
                                             finished_at := fa |};
                                  account := acc; logs := lg; clock := clk |})
                       {| id := i; job_id := j; case_name := n;
                          description := d; status := IN_PROGRESS;
                          nodes := nd; updates := ups;
                          total_cost := tc; final_delivery := fd;
                          finished_at := fa |})))).
  set (h' := alter (set_index (Z.of_nat (length ups) + 1)) r
               (<[r := new_CaseNodeUpdate None None (Some case_result) true None None]> h)) in *.
  exists {| heap := h'; self := c;
            account := acc ++ [SentUpdateCase c r (h' !! r)];
            logs := lg ++ [(INFO, "[Close case]")]; clock := clk |}.
  split.
  - subst c h'. unfold close.
    destruct (opt_float_truthy final_cost); reflexivity.
  - cbn [heap self account logs clock]. rewrite Hfinal, lookup_insert_eq.
    repeat split.
Qed.

(** [close] on a case that is not in progress: the lifecycle engine
    refuses the event; the cost has been written, nothing else. *)
Lemma close_not_in_progress w case_result final_cost :
  status (self w) <> IN_PROGRESS ->
  exists w',
    close case_result final_cost w
    = (Raise (TransitionError (status (self w)) SUCCESSFULLY_DONE), w')
    /\ heap w' = heap w
    /\ updates (self w') = updates (self w)
    /\ status (self w') = status (self w)
    /\ account w' = account w.
Proof.
  destruct w as [h [i j n d st nd ups tc fd fa] acc lg clk]. cbn [self status heap].
  intros Hst.
  destruct (opt_float_truthy final_cost) eqn:Htruthy;
    destruct st; try congruence;
    (eexists; split; [unfold close; rewrite Htruthy; reflexivity |]);
    repeat split.
Qed.

Lemma wf_live_not_fresh w r :
  wf w -> r ∈ updates (self w) -> r <> fresh (dom (heap w)).
Proof.
  intros Hwf Hr ->. apply Hwf in Hr. apply elem_of_dom in Hr.
  exact (is_fresh (dom (heap w)) Hr).
Qed.

(** C10. [close] leaves the log of updates as it was: the same
    references, in the same order, to objects that hold what they held.
    When it succeeds, the final update (marked final, carrying the
    result and the index [len(updates) + 1]) is a new object that is
    handed to the Account and is not in the log. *)
Theorem close_keeps_update_log w case_result final_cost res w' :
  wf w ->
  close case_result final_cost w = (res, w') ->
  updates (self w') = updates (self w)
  /\ length (updates (self w')) = length (updates (self w))
  /\ read_updates w' = read_updates w
  /\ (res = Ok tt ->
      exists r final,
        (r ∉ updates (self w'))
        /\ heap w' !! r = Some final
        /\ is_final final = true
        /\ payload final = Some case_result
        /\ index final = Some (Z.of_nat (length (updates (self w))) + 1)
        /\ last (account w') = Some (SentUpdateCase (self w') r (Some final))).
Proof.
  intros Hwf Hclose.
  destruct (decide (status (self w) = IN_PROGRESS)) as [Hst | Hst].
  - destruct (close_in_progress w case_result final_cost Hst)
      as (w1 & Hrun & Hheap & Hself & Hacc & _ & _).
    rewrite Hrun in Hclose. injection Hclose as <- <-.
    assert (Hupd : updates (self w1) = updates (self w)) by now rewrite Hself.
    split; [exact Hupd |]. split; [now rewrite Hupd |]. split.
    + unfold read_updates. rewrite Hupd, Hheap. apply map_ext_in.
      intros r Hr%list_elem_of_In. apply lookup_insert_ne.
      intros Heq. now apply (wf_live_not_fresh w r Hwf Hr).
    + intros _. eexists _, _. split; [| split; [rewrite Hheap; apply lookup_insert_eq |]].
      * rewrite Hupd. intros Hr. now apply (wf_live_not_fresh w _ Hwf Hr).
      * repeat split. rewrite Hacc. apply last_snoc.
  - destruct (close_not_in_progress w case_result final_cost Hst)
      as (w1 & Hrun & Hheap & Hupd & _ & _).
    rewrite Hrun in Hclose. injection Hclose as <- <-.
    split; [exact Hupd |]. split; [now rewrite Hupd |]. split.
    + unfold read_updates. now rewrite Hupd, Hheap.
    + discriminate.
Qed.

Lemma costed_world_wf : wf costed_world.
Proof.
  intros r Hr. cbn in Hr. apply elem_of_cons in Hr as [-> | Hr].
  - vm_compute. eauto.
  - now apply elem_of_nil in Hr.
Defined.

(** A case with one recorded update, closed without a final cost. *)
Lemma close_keeps_update_log_witness :
  updates (self (snd (close ok_result None costed_world)))
  = updates (self costed_world)
  /\ length (updates (self (snd (close ok_result None costed_world))))
     = length (updates (self costed_world))
  /\ read_updates (snd (close ok_result None costed_world))
     = read_updates costed_world
  /\ (fst (close ok_result None costed_world) = Ok tt ->
      exists r final,
        (r ∉ updates (self (snd (close ok_result None costed_world))))
        /\ heap (snd (close ok_result None costed_world)) !! r = Some final
        /\ is_final final = true
        /\ payload final = Some ok_result
        /\ index final = Some (Z.of_nat (length (updates (self costed_world))) + 1)
        /\ last (account (snd (close ok_result None costed_world)))
           = Some (SentUpdateCase (self (snd (close ok_result None costed_world)))
                     r (Some final))).
Proof.
  apply (close_keeps_update_log costed_world ok_result None).
  - exact costed_world_wf.
  - apply surjective_pairing.
Defined.

(** ** Cases: closing *)

(** What [close] writes on a case in progress.  The total cost is the
    final cost when that is a float other than zero, and the sum of the
    recorded costs otherwise: with no final cost, and also with a final
    cost of [0.0], which [if final_cost:] takes for absent. *)
Lemma close_effect w case_result final_cost :
  status (self w) = IN_PROGRESS ->
  exists w',
    close case_result final_cost w = (Ok tt, w')
    /\ total_cost (self w')
       = match final_cost with
         | Some f => if float_truthy f then f else calculated_cost w
         | None => calculated_cost w
         end
    /\ status (self w') = COMPLETED
    /\ final_delivery (self w') = Some case_result
    /\ finished_at (self w') = Some (clock w).
Proof.
  intros Hst.
  destruct (close_in_progress w case_result final_cost Hst)
    as (w' & Hrun & _ & Hself & _).
  exists w'. split; [exact Hrun |]. rewrite Hself. cbn.
  repeat split. destruct final_cost as [f|]; reflexivity.
Qed.

(** The scenario of section 8: a case is started, one update with cost
    5.0 is recorded, and the case is closed with no final cost. *)
Example started_case_in_progress :
  status (self (started_world one_update)) = IN_PROGRESS.
Proof. vm_compute. reflexivity. Qed.

Example close_sums_recorded_costs :
  exists w',
    close ok_result None costed_world = (Ok tt, w')
    /\ total_cost (self w') = 5%float
    /\ status (self w') = COMPLETED
    /\ final_delivery (self w') = Some ok_result.
Proof.
  exists (snd (close ok_result None costed_world)).
  split; [| split; [| split]]; vm_compute; reflexivity.
Qed.

Example close_with_final_cost :
  exists w',
    close ok_result (Some 2.5%float) costed_world = (Ok tt, w')
    /\ total_cost (self w') = 2.5%float.
Proof.
  exists (snd (close ok_result (Some 2.5%float) costed_world)).
  split; vm_compute; reflexivity.
Qed.

(** C8, at [final_cost = 0.0]: on a case in progress whose one recorded
    update cost 5.0, [close({"ok": True}, final_cost=0.0)] succeeds and
    leaves [total_cost == 5.0], the sum of the recorded costs, not the
    final cost that was given. *)
Theorem close_ignores_zero_final_cost :
  status (self costed_world) = IN_PROGRESS
  /\ calculated_cost costed_world = 5%float
  /\ exists w',
       close ok_result (Some 0%float) costed_world = (Ok tt, w')
       /\ total_cost (self w') = 5%float
       /\ PrimFloat.eqb (total_cost (self w')) 0%float = false
       /\ status (self w') = COMPLETED
       /\ final_delivery (self w') = Some ok_result.
Proof.
  split; [vm_compute; reflexivity |]. split; [vm_compute; reflexivity |].
  exists (snd (close ok_result (Some 0%float) costed_world)).
  split; [| split; [| split; [| split]]]; vm_compute; reflexivity.
Qed.

End CaseFacts.

(** ** Jobs: dispatch *)

Section AgentFacts.

Import Registry Agents.

Variable modules : py_modules.
Variable self : Agent.
Variable job_fields : pydict.
Variable context : JobContext.
Variable server : Server.
Variable method_name : string.

(** Rewriting with a fact about the agent or the modules, then running
    the computation as far as it goes. *)
Ltac run_with H := rewrite ?H; cbn -[merged_params str_exn].

Ltac start_run w :=
  destruct w as [[jid an jc rs ap] acc fin inv lg];
  destruct server as [[account_id|]];
  unfold job_start; cbn -[merged_params str_exn] in *.

(** C2. When the body of the dispatched method raises [e], [job_start]
    appends the pre-marker and then exactly one response of its own
    making, with status FAILED and [error = e], and raises [e] itself;
    the job-finished hook is not called. *)
Theorem job_start_records_failure w action module_name func_name module f e :
  is_async (Registry.job_start (methods self)) = false ->
  select_action (methods self) method_name = Ok action ->
  rsplit_dot (method action) = Some (module_name, func_name) ->
  modules module_name = Some module ->
  module func_name = Some f ->
  f (merged_params action job_fields context (agent_parameters (job w))) = Raises e ->
  exists w',
    job_start modules self job_fields context server method_name w = (Raise e, w')
    /\ responses (job w')
       = responses (job w) ++ [starting_response (job w); failed_response (job w) e]
    /\ status (failed_response (job w) e) = FAILED
    /\ error (failed_response (job w) e) = Some e
    /\ finished w' = finished w
    /\ invoked w'
       = invoked w ++ [(method action,
                        merged_params action job_fields context (agent_parameters (job w)))].
Proof.
  intros Hsync Hsel Hsplit Hmod Hfun Hraise.
  start_run w.
  all: run_with Hsel; run_with Hsync; unfold _execute.
  all: run_with Hsplit; run_with Hmod; run_with Hfun; run_with Hraise.
  all: eexists; split; [reflexivity |]; cbn -[merged_params str_exn].
  all: rewrite <- app_assoc; repeat split.
Qed.

(** C3. When the dispatched method returns a response, its status alone
    decides what follows: COMPLETED, FAILED, CANCELLED and CANCELLING
    append the response and call the job-finished hook with the job;
    AWAITING appends the response and calls no hook; STOPPED and
    IN_PROGRESS append nothing after the pre-marker, call no hook and log
    a warning. *)
Theorem job_start_classifies_response w action module_name func_name module f r :
  is_async (Registry.job_start (methods self)) = false ->
  select_action (methods self) method_name = Ok action ->
  rsplit_dot (method action) = Some (module_name, func_name) ->
  modules module_name = Some module ->
  module func_name = Some f ->
  f (merged_params action job_fields context (agent_parameters (job w)))
  = Returns (RetJobResponse r) ->
  exists w',
    job_start modules self job_fields context server method_name w = (Ok (job w'), w')
    /\ invoked w'
       = invoked w ++ [(method action,
                        merged_params action job_fields context (agent_parameters (job w)))]
    /\ match status r with
       | COMPLETED | FAILED | CANCELLED | CANCELLING =>
           responses (job w') = responses (job w) ++ [starting_response (job w); r]
           /\ finished w' = finished w ++ [job w']
       | AWAITING =>
           responses (job w') = responses (job w) ++ [starting_response (job w); r]
           /\ finished w' = finished w
       | STOPPED | IN_PROGRESS =>
           responses (job w') = responses (job w) ++ [starting_response (job w)]
           /\ finished w' = finished w
           /\ last (logs w')
              = Some (WARNING, "[Agent job_start] Job is not a terminal status, skipping job finish")
       end.
Proof.
  intros Hsync Hsel Hsplit Hmod Hfun Hreturn.
  destruct r as [rid st msg pl err].
  start_run w.
  all: run_with Hsel; run_with Hsync; unfold _execute.
  all: run_with Hsplit; run_with Hmod; run_with Hfun; run_with Hreturn.
  all: unfold classify; destruct st; cbn -[merged_params].
  all: eexists; split; [reflexivity |]; cbn -[merged_params].
  all: rewrite ?last_snoc, <- ?app_assoc; repeat split.
Qed.

(** When the [job_start] entry is declared asynchronous, every dispatch
    through [job_start] stops before the method is resolved or called:
    the failure is recorded and [NotImplementedError] is raised. *)
Lemma job_start_async_entry_not_implemented w action :
  is_async (Registry.job_start (methods self)) = true ->
  select_action (methods self) method_name = Ok action ->
  exists w',
    job_start modules self job_fields context server method_name w
    = (Raise not_implemented, w')
    /\ invoked w' = invoked w
    /\ responses (job w')
       = responses (job w)
         ++ [starting_response (job w); failed_response (job w) not_implemented]
    /\ finished w' = finished w.
Proof.
  intros Hasync Hsel.
  start_run w.
  all: run_with Hsel; run_with Hasync.
  all: eexists; split; [reflexivity |]; cbn -[merged_params str_exn].
  all: rewrite <- app_assoc; repeat split.
Qed.

End AgentFacts.

Section AgentExamples.

Import Registry Agents.

(** The method of the [job_start] entry raises [RuntimeError("boom")]. *)
Lemma job_start_records_failure_witness :
  exists w',
    job_start test_modules (agent_calling "control.fails") test_fields test_context
      test_server "job_start" test_world
    = (Raise (MethodError "RuntimeError" "boom"), w')
    /\ responses (job w')
       = responses (job test_world)
         ++ [starting_response (job test_world);
             failed_response (job test_world) (MethodError "RuntimeError" "boom")]
    /\ status (failed_response (job test_world) (MethodError "RuntimeError" "boom")) = FAILED
    /\ error (failed_response (job test_world) (MethodError "RuntimeError" "boom"))
       = Some (MethodError "RuntimeError" "boom")
    /\ finished w' = finished test_world
    /\ invoked w'
       = invoked test_world
         ++ [(method (method_calling "control.fails" false),
              merged_params (method_calling "control.fails" false) test_fields
                test_context (agent_parameters (job test_world)))].
Proof.
  apply (job_start_records_failure test_modules (agent_calling "control.fails")
           test_fields test_context test_server "job_start" test_world
           (method_calling "control.fails" false) "control" "fails" control_module
           (fun _ => Raises (MethodError "RuntimeError" "boom"))).
  all: reflexivity.
Defined.

(** The method of the [job_start] entry returns an AWAITING response. *)
Lemma job_start_classifies_response_witness :
  exists w',
    job_start test_modules (agent_calling "control.awaits") test_fields test_context
      test_server "job_start" test_world
    = (Ok (job w'), w')
    /\ invoked w'
       = invoked test_world
         ++ [(method (method_calling "control.awaits" false),
              merged_params (method_calling "control.awaits" false) test_fields
                test_context (agent_parameters (job test_world)))]
    /\ responses (job w')
       = responses (job test_world)
         ++ [starting_response (job test_world); response_with AWAITING]
    /\ finished w' = finished test_world.
Proof.
  apply (job_start_classifies_response test_modules (agent_calling "control.awaits")
           test_fields test_context test_server "job_start" test_world
           (method_calling "control.awaits" false) "control" "awaits" control_module
           (fun _ => Returns (RetJobResponse (response_with AWAITING)))
           (response_with AWAITING)).
  all: reflexivity.
Defined.

(** The three classes of statuses, run. *)
Example completed_response_finishes_job :
  let run := job_start test_modules (agent_calling "control.completes") test_fields
               test_context test_server "job_start" test_world in
  fst run = Ok (job (snd run))
  /\ responses (job (snd run)) = [starting_response test_job; response_with COMPLETED]
  /\ finished (snd run) = [job (snd run)].
Proof. split; [| split]; vm_compute; reflexivity. Qed.

Example in_progress_response_stalls_job :
  let run := job_start test_modules (agent_calling "control.lingers") test_fields
               test_context test_server "job_start" test_world in
  fst run = Ok (job (snd run))
  /\ responses (job (snd run)) = [starting_response test_job]
  /\ finished (snd run) = [].
Proof. split; [| split]; vm_compute; reflexivity. Qed.

(** C9, at a custom entry declared [is_async=True] on an agent whose
    [job_start] entry is synchronous: the dispatch does not fail; the
    method body is called and its response is appended, and the
    job-finished hook runs. *)
Theorem async_custom_method_is_called :
  let run := job_start test_modules agent_with_async_custom test_fields
               test_context test_server "sync-data" test_world in
  select_action (methods agent_with_async_custom) "sync-data"
  = Ok (method_calling "control.completes" true)
  /\ is_async (method_calling "control.completes" true) = true
  /\ fst run = Ok (job (snd run))
  /\ invoked (snd run)
     = [("control.completes",
         merged_params (method_calling "control.completes" true) test_fields
           test_context None)]
  /\ responses (job (snd run)) = [starting_response test_job; response_with COMPLETED]
  /\ finished (snd run) = [job (snd run)].
Proof.
  split; [| split; [| split; [| split; [| split]]]]; vm_compute; reflexivity.
Qed.

(** The other side of the same test: with an asynchronous [job_start]
    entry, a synchronous custom entry is refused as well. *)
Example sync_custom_method_is_refused :
  let run := job_start test_modules agent_with_async_start test_fields
               test_context test_server "sync-data" test_world in
  is_async (method_calling "control.completes" false) = false
  /\ fst run = Raise not_implemented
  /\ invoked (snd run) = [].
Proof. split; [| split]; vm_compute; reflexivity. Qed.

End AgentExamples.

(** ** Remote parameter updates *)

Section ParameterFacts.

Import Parameters.

Lemma apply_record_known w r p :
  definitions w !! rec_name r = Some p ->
  exists w',
    apply_record r w = (Ok tt, w')
    /\ definitions w' = <[rec_name r := set_value (rec_value r) p]> (definitions w).
Proof.
  intros Hp. destruct w as [ps sep env lg].
  unfold apply_record, bind, get. cbn [fst snd]. rewrite Hp.
  destruct (rec_is_environment r); eexists; (split; [reflexivity | reflexivity]).
Qed.

Lemma apply_record_unknown w r :
  definitions w !! rec_name r = None ->
  apply_record r w = (Raise (unknown_parameter (rec_name r)), w).
Proof.
  intros Hp. unfold apply_record, bind, get. now rewrite Hp.
Qed.

(** Applying a record for a defined name adds no name. *)
Lemma apply_records_known records : forall w,
  Forall (fun x => is_Some (definitions w !! rec_name x)) records ->
  exists w',
    apply_records records w = (Ok tt, w')
    /\ dom (definitions w') = dom (definitions w).
Proof.
  induction records as [|x records IH]; intros w Hknown.
  - exists w. split; reflexivity.
  - apply Forall_cons in Hknown as [[p Hp] Hknown].
    destruct (apply_record_known w x p Hp) as (w1 & Hrun1 & Hdefs1).
    assert (Hdom1 : dom (definitions w1) = dom (definitions w)).
    { rewrite Hdefs1, dom_insert_L. apply elem_of_dom_2 in Hp.
      apply subseteq_union_1_L. now apply singleton_subseteq_l. }
    destruct (IH w1) as (w' & Hrun & Hdom).
    + eapply Forall_impl; [exact Hknown |]. intros y Hy. cbn in Hy.
      apply elem_of_dom. rewrite Hdom1. now apply elem_of_dom.
    + exists w'. split; [| now rewrite Hdom, Hdom1].
      cbn [apply_records]. unfold bind at 1. now rewrite Hrun1.
Qed.

(** Any payload with an unknown name splits at the first such record. *)
Lemma first_unknown (defs : gmap string ParameterDefinition) records :
  Exists (fun x => defs !! rec_name x = None) records ->
  exists before r after,
    records = before ++ r :: after
    /\ Forall (fun x => is_Some (defs !! rec_name x)) before
    /\ defs !! rec_name r = None.
Proof.
  induction records as [|x records IH]; intros Hex; [now apply Exists_nil in Hex |].
  destruct (defs !! rec_name x) as [p|] eqn:Hx.
  - apply Exists_cons in Hex as [Hex | Hex]; [congruence |].
    destruct (IH Hex) as (before & r & after & -> & Hknown & Hr).
    exists (x :: before), r, after. repeat split; [| exact Hr].
    constructor; [rewrite Hx; eauto | exact Hknown].
  - exists [], x, records. repeat split; [constructor | exact Hx].
Qed.

(** Validation stops at the first record whose name is not defined,
    wherever it stands in the payload. *)
Lemma validate_records_first_unknown defs before r after :
  Forall (fun x => is_Some (defs !! rec_name x)) before ->
  defs !! rec_name r = None ->
  validate_records defs (before ++ r :: after) = Raise (unknown_parameter (rec_name r)).
Proof.
  intros Hknown Hr. induction Hknown as [|x before [p Hp] _ IH]; cbn.
  - now rewrite Hr.
  - now rewrite Hp.
Qed.

Lemma validate_records_known defs records :
  Forall (fun x => is_Some (defs !! rec_name x)) records ->
  validate_records defs records = Ok tt.
Proof.
  intros Hknown. induction Hknown as [|x records [p Hp] _ IH]; cbn; [reflexivity |].
  now rewrite Hp.
Qed.

(** A payload whose names are all defined is applied, and adds no
    name. *)
Lemma update_values_known records w :
  Forall (fun x => is_Some (definitions w !! rec_name x)) records ->
  exists w',
    update_values_from_server records w = (Ok tt, w')
    /\ dom (definitions w') = dom (definitions w).
Proof.
  intros Hknown. unfold update_values_from_server, bind, get. cbn [fst snd].
  rewrite (validate_records_known _ _ Hknown). now apply apply_records_known.
Qed.

(** C5.  When the decrypted payload holds a record whose name is not
    defined, wherever it stands, the update fails with a
    [ValidationError] (for the first such name); the parameter set is
    the one the agent had: no parameter is created and every definition
    keeps its value, also those named by records that stand before the
    unknown one; the environment is untouched too. *)
Theorem update_rejects_unknown_name server encrypted w defs decrypted records :
  opt_str_truthy encrypted = true ->
  parameters_setup w = Some defs ->
  decrypt server (default "" encrypted) = Ok decrypted ->
  json_loads server decrypted = Ok records ->
  Exists (fun x => defs !! rec_name x = None) records ->
  exists r w',
    r ∈ records
    /\ defs !! rec_name r = None
    /\ update_parameters_from_server server encrypted w
       = (Raise (unknown_parameter (rec_name r)), w')
    /\ is_validation_error (unknown_parameter (rec_name r)) = true
    /\ parameters_setup w' = Some defs
    /\ (forall k, definitions w' !! k = defs !! k)
    /\ environ w' = environ w.
Proof.
  intros Htruthy Hsetup Hdecrypt Hloads Hex.
  destruct (first_unknown defs records Hex) as (before & r & after & -> & Hknown & Hr).
  exists r, (set_server_encrypted_parameters encrypted w).
  split; [apply elem_of_app; right; apply list_elem_of_here |].
  split; [exact Hr |]. split; [| split; [reflexivity | split; [exact Hsetup | split]]].
  - unfold update_parameters_from_server, bind, get, modify. cbn [fst snd].
    rewrite Htruthy, Hsetup. cbn [andb].
    rewrite bool_decide_eq_true_2 by eauto.
    rewrite Hdecrypt, Hloads.
    unfold update_values_from_server, bind, get. cbn [fst snd].
    assert (Hdefs : definitions (set_server_encrypted_parameters encrypted w) = defs).
    { unfold definitions. cbn. now rewrite Hsetup. }
    rewrite Hdefs.
    now rewrite (validate_records_first_unknown defs before r after Hknown Hr).
  - intros k. unfold definitions. cbn. now rewrite Hsetup.
  - reflexivity.
Qed.

(** A payload with a record for [parameter1] and then a record for a
    name that is not defined: the update fails and [parameter1] keeps
    its value. *)
Lemma update_rejects_unknown_name_witness :
  exists r w',
    r ∈ mixed_payload
    /\ test_definitions !! rec_name r = None
    /\ update_parameters_from_server (server_sending mixed_payload)
         (Some "encrypted") test_world
       = (Raise (unknown_parameter (rec_name r)), w')
    /\ is_validation_error (unknown_parameter (rec_name r)) = true
    /\ parameters_setup w' = Some test_definitions
    /\ (forall k, definitions w' !! k = test_definitions !! k)
    /\ environ w' = environ test_world.
Proof.
  apply (update_rejects_unknown_name (server_sending mixed_payload)
           (Some "encrypted") test_world test_definitions "decrypted" mixed_payload).
  - reflexivity.
  - reflexivity.
  - reflexivity.
  - reflexivity.
  - apply Exists_cons_tl, Exists_cons_hd. vm_compute. reflexivity.
Defined.

End ParameterFacts.

(** ** The other methods of the agent *)

Section AgentCallFacts.

Import Registry Agents AgentCalls.

(** [fields_definitions] keeps the number and the order of the fields;
    in each field it drops the items whose key is ["type"] and nothing
    else, in the order they had. *)
Theorem fields_definitions_drop_type (m : AgentMethod) :
  length (fields_definitions m) = length (default [] (fields m))
  /\ forall i (field : pydict),
       default [] (fields m) !! i = Some field ->
       exists shown : pydict,
         fields_definitions m !! i = Some shown
         /\ (forall kv, kv ∈ shown <-> kv ∈ field /\ fst kv <> "type")
         /\ ("type" ∉ map fst shown)
         /\ sublist shown field.
Proof.
  assert (Hdef : fields_definitions m = map without_type (default [] (fields m))).
  { unfold fields_definitions. now destruct (fields m) as [[|field rest]|]. }
  rewrite Hdef. split; [apply length_map |].
  intros i field Hi. exists (without_type field).
  split.
  { change (map without_type (default [] (fields m)))
      with (without_type <$> default [] (fields m)).
    now rewrite list_lookup_fmap, Hi. }
  unfold without_type.
  split; [| split].
  - intros kv. rewrite list_elem_of_filter. tauto.
  - intros Hin. apply list_elem_of_fmap in Hin as (kv & Hkey & Hkv).
    apply list_elem_of_filter in Hkv as [Hne _]. congruence.
  - apply sublist_filter.
Qed.

End AgentCallFacts.

Section CustomMethodFacts.

Import Re Registry Agents AgentCalls.

Lemma accepted_key_not_job_start key : accepted_key key -> key <> "job_start".
Proof. intros Hok ->. vm_compute in Hok. discriminate Hok. Qed.

Lemma custom_method_found (d : custom_dict) name methods :
  custom methods = Some d -> name ∈ map fst d ->
  exists m, custom_method methods name = Ok m /\ (name, m) ∈ d.
Proof.
  intros Hcustom Hin. unfold custom_method. rewrite Hcustom.
  apply list_elem_of_fmap in Hin as ([key m0] & -> & Hkv). cbn [fst].
  destruct (list_find (fun kv => fst kv = key) d) as [[i [k m]]|] eqn:Hfind.
  - apply list_find_Some in Hfind as (Hi & Hk & _). cbn in Hk. subst k.
    exists m. split; [reflexivity |]. eapply list_elem_of_lookup_2, Hi.
  - exfalso. eapply list_find_None in Hfind.
    eapply Forall_forall in Hfind; [| exact Hkv]. now apply Hfind.
Qed.

(** Every name that [custom_methods_names] lists on a validated registry
    can be dispatched by [job_start]: the validator refuses the one key,
    ["job_start"], that the dispatcher would take for the main entry. *)
Theorem listed_custom_methods_are_dispatchable self js jp jst ch value names :
  AgentMethodsModel js jp jst ch value = Ok (methods self) ->
  custom_methods_names self = Some names ->
  forall name, name ∈ names ->
    name <> "job_start"
    /\ exists m,
         select_action (methods self) name = Ok m
         /\ (name, m) ∈ default [] (custom (methods self)).
Proof.
  intros Hmodel Hnames name Hname.
  assert (Hvalid : Forall accepted_key (keys_of (custom (methods self)))).
  { revert Hmodel. unfold AgentMethodsModel.
    destruct (validate_custom_method_keys value) as [v|e] eqn:Hv;
      [| destruct e; discriminate].
    intros [= <-]. cbn [custom].
    assert (v = value) as ->.
    { revert Hv. unfold validate_custom_method_keys.
      destruct (dict_truthy value); [destruct (check_keys _) |]; congruence. }
    now apply validate_ok. }
  unfold custom_methods_names in Hnames.
  destruct (dict_truthy (custom (methods self))); [| discriminate].
  injection Hnames as <-.
  assert (Hne : name <> "job_start").
  { apply accepted_key_not_job_start.
    eapply Forall_forall in Hvalid; [exact Hvalid | exact Hname]. }
  split; [exact Hne |].
  unfold select_action. destruct (decide (name = "job_start")); [congruence |].
  destruct (custom (methods self)) as [d|] eqn:Hcustom;
    [| now apply elem_of_nil in Hname].
  destruct (custom_method_found d name (methods self) Hcustom Hname) as (m & Hm & Hin).
  exists m. split; [exact Hm | exact Hin].
Qed.

End CustomMethodFacts.

Section CustomMethodExamples.

Import Registry Agents AgentCalls.

Lemma listed_custom_methods_are_dispatchable_witness :
  custom_methods_names chatty_agent = Some ["method1"; "method2"]
  /\ "method2" <> "job_start"
  /\ exists m,
       select_action (methods chatty_agent) "method2" = Ok m
       /\ ("method2", m) ∈ default [] (custom (methods chatty_agent)).
Proof.
  split; [reflexivity |].
  apply (listed_custom_methods_are_dispatchable chatty_agent
           (method_calling "control.completes" false)
           (method_calling "control.completes" true)
           (method_calling "control.lingers" false)
           (Some (method_calling "control.awaits" false))
           (Some [("method1", method_calling "control.completes" false);
                  ("method2", method_calling "control.fails" false)])
           ["method1"; "method2"]).
  - vm_compute. reflexivity.
  - reflexivity.
  - apply list_elem_of_further, list_elem_of_here.
Defined.

End CustomMethodExamples.

(** ** Jobs: the other paths of [job_start] *)

Section DispatchPaths.

Import Registry Agents AgentCalls.

Variable modules : py_modules.
Variable self : Agent.
Variable job_fields : pydict.
Variable context : JobContext.
Variable server : Server.
Variable method_name : string.

Ltac open_world w :=
  destruct w as [[jid an jc rs ap] acc fin inv lg];
  destruct server as [[account_id|]];
  unfold job_start; cbn -[merged_params str_exn] in *.

Ltac step_with H := rewrite ?H; cbn -[merged_params str_exn].

(** A name that is neither ["job_start"] nor a key of the custom
    dictionary is looked up outside the [try]: the lookup error is
    raised as it is, after the pre-marker has been appended, and no
    failure is recorded for it. *)
Theorem job_start_unknown_method_not_recorded w :
  method_name <> "job_start" ->
  method_name ∉ keys_of (custom (methods self)) ->
  exists w',
    job_start modules self job_fields context server method_name w
    = (Raise (match custom (methods self) with
              | Some _ => KeyError method_name
              | None => TypeError "'NoneType' object is not subscriptable"
              end), w')
    /\ responses (job w') = responses (job w) ++ [starting_response (job w)]
    /\ finished w' = finished w
    /\ invoked w' = invoked w.
Proof.
  intros Hname Hkey.
  assert (Hsel : select_action (methods self) method_name
                 = Raise (match custom (methods self) with
                          | Some _ => KeyError method_name
                          | None => TypeError "'NoneType' object is not subscriptable"
                          end)).
  { unfold select_action, custom_method.
    destruct (decide (method_name = "job_start")); [congruence |].
    destruct (custom (methods self)) as [d|]; [| reflexivity].
    destruct (list_find _ d) as [[i [k m]]|] eqn:Hfind; [| reflexivity].
    apply list_find_Some in Hfind as (Hi & Hk & _). cbn in Hk. subst k.
    exfalso. apply Hkey. unfold keys_of. cbn [default from_option].
    apply list_elem_of_fmap. exists (method_name, m).
    split; [reflexivity | eapply list_elem_of_lookup_2, Hi]. }
  open_world w.
  all: step_with Hsel.
  all: eexists; split; [reflexivity |]; cbn; repeat split.
Qed.

(** A method that cannot be resolved (no dot in its path, no such
    module, no such attribute) is never called; the error is recorded as
    a FAILED response and raised. *)
Theorem job_start_unresolved_method_recorded w action :
  is_async (Registry.job_start (methods self)) = false ->
  select_action (methods self) method_name = Ok action ->
  resolve modules (method action) = None ->
  exists e w',
    job_start modules self job_fields context server method_name w = (Raise e, w')
    /\ responses (job w')
       = responses (job w) ++ [starting_response (job w); failed_response (job w) e]
    /\ finished w' = finished w
    /\ invoked w' = invoked w.
Proof.
  intros Hsync Hsel Hunresolved. unfold resolve in Hunresolved.
  open_world w.
  all: step_with Hsel; step_with Hsync; unfold _execute.
  all: destruct (rsplit_dot (method action)) as [[module_name func_name]|];
    cbn -[merged_params str_exn].
  all: try (destruct (modules module_name) as [module|];
            cbn -[merged_params str_exn]).
  all: try (destruct (module func_name) as [f|]; [discriminate |];
            cbn -[merged_params str_exn]).
  all: eexists _, _; split; [reflexivity |]; cbn -[merged_params str_exn].
  all: rewrite <- app_assoc; repeat split.
Qed.

(** A method that returns something that is not a [JobResponse] has
    been called; [job_start] records and raises a [TypeError] that names
    the function and the type of what it returned. *)
Theorem job_start_wrong_return_recorded w action module_name func_name module f type_name :
  is_async (Registry.job_start (methods self)) = false ->
  select_action (methods self) method_name = Ok action ->
  rsplit_dot (method action) = Some (module_name, func_name) ->
  modules module_name = Some module ->
  module func_name = Some f ->
  f (merged_params action job_fields context (agent_parameters (job w)))
  = Returns (RetOther type_name) ->
  let e := TypeError ("Method " +:+ func_name
                      +:+ " must return a JobResponse object, got " +:+ type_name) in
  exists w',
    job_start modules self job_fields context server method_name w = (Raise e, w')
    /\ responses (job w')
       = responses (job w) ++ [starting_response (job w); failed_response (job w) e]
    /\ finished w' = finished w
    /\ invoked w'
       = invoked w ++ [(method action,
                        merged_params action job_fields context (agent_parameters (job w)))].
Proof.
  intros Hsync Hsel Hsplit Hmod Hfun Hreturn e. subst e.
  open_world w.
  all: step_with Hsel; step_with Hsync; unfold _execute.
  all: step_with Hsplit; step_with Hmod; step_with Hfun; step_with Hreturn.
  all: eexists; split; [reflexivity |]; cbn -[merged_params str_exn].
  all: rewrite <- app_assoc; repeat split.
Qed.

(** Whatever the agent, the modules and the method do, and however
    [job_start] ends, the responses the job had are kept as they were,
    the pre-marker comes next, and on a path on which the job-finished
    hook is not called at most one response follows it; an [Ok] result
    is the job itself. *)
Theorem job_start_keeps_earlier_responses w res w' :
  job_start modules self job_fields context server method_name w = (res, w') ->
  exists extra,
    responses (job w') = responses (job w) ++ starting_response (job w) :: extra
    /\ (finished w' = finished w -> (length extra <= 1)%nat)
    /\ (forall j, res = Ok j -> j = job w').
Proof.
  intros Hrun. open_world w.
  all: destruct (select_action (methods self) method_name) as [action|e0];
    cbn -[merged_params str_exn] in Hrun.
  all: try destruct (is_async (Registry.job_start (methods self)));
    cbn -[merged_params str_exn] in Hrun.
  all: unfold _execute in Hrun.
  all: try (destruct (rsplit_dot (method action)) as [[module_name func_name]|];
            cbn -[merged_params str_exn] in Hrun).
  all: try (destruct (modules module_name) as [module|];
            cbn -[merged_params str_exn] in Hrun).
  all: try (destruct (module func_name) as [f|];
            cbn -[merged_params str_exn] in Hrun).
  all: try (destruct (f (merged_params action job_fields context ap))
              as [[[rid st msg pl err]|type_name]|e1];
            cbn -[merged_params str_exn] in Hrun).
  all: try (unfold classify in Hrun; destruct st; cbn -[merged_params str_exn] in Hrun).
  all: injection Hrun as <- <-; cbn -[merged_params str_exn].
  all: rewrite <- ?app_assoc; cbn [app].
  all: eexists; split; [reflexivity |]; cbn [length].
  all: split; [intros _; lia | congruence].
Qed.

End DispatchPaths.

Section DispatchFrame.

Import Registry Agents AgentCalls.

Variable modules : py_modules.
Variable self : Agent.

(** [_execute] touches neither the job nor the Account nor the
    job-finished hook; it calls at most one method, the one at [action],
    with the arguments it was given. *)
Lemma execute_frame action params w res w' :
  _execute modules action params w = (res, w') ->
  job w' = job w /\ account w' = account w /\ finished w' = finished w
  /\ (invoked w' = invoked w \/ invoked w' = invoked w ++ [(action, params)]).
Proof.
  unfold _execute. destruct w as [j acc fin inv lg].
  destruct (rsplit_dot action) as [[module_name func_name]|]; cbn.
  2: { intros [= <- <-]. repeat split. now left. }
  destruct (modules module_name) as [module|]; cbn.
  2: { intros [= <- <-]. repeat split. now left. }
  destruct (module func_name) as [f|]; cbn.
  2: { intros [= <- <-]. repeat split. now left. }
  destruct (f params) as [[r|type_name]|e]; cbn; intros [= <- <-];
    repeat split; now right.
Qed.

(** [job_stop], [job_status] and [chat] dispatch without any
    bookkeeping: whatever the method does, the job's responses are as
    they were, the job-finished hook is not called and the Account is
    not told. *)
Theorem direct_calls_leave_job_alone params context message w :
  let stopped := snd (job_stop modules self params w) in
  let asked := snd (job_status modules self params w) in
  let chatted := snd (chat modules self context message w) in
  (job stopped = job w /\ finished stopped = finished w /\ account stopped = account w)
  /\ (job asked = job w /\ finished asked = finished w /\ account asked = account w)
  /\ (job chatted = job w /\ finished chatted = finished w /\ account chatted = account w).
Proof.
  intros stopped asked chatted. subst stopped asked chatted.
  unfold job_stop, job_status, chat.
  split; [| split].
  - destruct (_execute modules _ _ w) as [res w'] eqn:Hrun.
    apply execute_frame in Hrun as (? & ? & ? & _). now repeat split.
  - destruct (_execute modules _ _ w) as [res w'] eqn:Hrun.
    apply execute_frame in Hrun as (? & ? & ? & _). now repeat split.
  - destruct (Registry.chat (methods self)) as [chat_method|]; [| now repeat split].
    destruct (_execute modules _ _ w) as [res w'] eqn:Hrun.
    apply execute_frame in Hrun as (? & ? & ? & _). now repeat split.
Qed.

(** Without a chat method, [chat] raises [ValueError] at once: nothing
    is resolved, called or logged. *)
Theorem chat_not_configured context message w :
  Registry.chat (methods self) = None ->
  chat modules self context message w
  = (Raise (ValueError "Chat method not configured"), w).
Proof. intros Hchat. unfold chat. now rewrite Hchat. Qed.

(** [job_stop] returns what the method of the [job_stop] entry returns,
    and calls it once with the given parameters; the [is_async] mark of
    the entry plays no part. *)
Theorem job_stop_returns_method_response params w module_name func_name module f r :
  rsplit_dot (method (Registry.job_stop (methods self))) = Some (module_name, func_name) ->
  modules module_name = Some module ->
  module func_name = Some f ->
  f (ArgStatic <$> params) = Returns (RetJobResponse r) ->
  exists w',
    job_stop modules self params w = (Ok r, w')
    /\ invoked w'
       = invoked w ++ [(method (Registry.job_stop (methods self)), ArgStatic <$> params)]
    /\ job w' = job w.
Proof.
  intros Hsplit Hmod Hfun Hreturn. destruct w as [j acc fin inv lg].
  unfold job_stop, _execute. cbn zeta. rewrite Hsplit, Hmod, Hfun. cbn.
  rewrite Hreturn. eexists. split; [reflexivity |]. now split.
Qed.

End DispatchFrame.

Section MergedParams.

Import Registry Agents.

(** In the keyword arguments of a dispatched method, ["fields"],
    ["context"] and ["agent_parameters"] always come from the call: a
    static parameter of the same name is overridden.  Every other static
    parameter is passed as it is, and nothing else is passed. *)
Theorem merged_params_precedence action job_fields context agent_parameters :
  let merged := merged_params action job_fields context agent_parameters in
  merged !! "fields" = Some (ArgFields job_fields)
  /\ merged !! "context" = Some (ArgContext context)
  /\ merged !! "agent_parameters" = Some (ArgAgentParameters agent_parameters)
  /\ forall key,
       key <> "fields" -> key <> "context" -> key <> "agent_parameters" ->
       merged !! key = ArgStatic <$> (params_or_empty (params action) !! key).
Proof.
  intros merged. subst merged. unfold merged_params, kwargs.
  split; [| split; [| split]].
  - rewrite !lookup_insert_ne by discriminate. apply lookup_insert_eq.
  - rewrite lookup_insert_ne by discriminate. apply lookup_insert_eq.
  - apply lookup_insert_eq.
  - intros key H1 H2 H3.
    rewrite !lookup_insert_ne by congruence. apply lookup_fmap.
Qed.

End MergedParams.

Section AgentIdFacts.

Import AgentCalls.

Variable uuid : string -> string.

(** An agent is constructed exactly when no id is given or the given id
    is the one [shortuuid] derives from the name; either way the id of
    the agent is the derived one.  In particular an empty id is refused
    unless the derived id is empty. *)
Theorem checked_agent_id_is_derived name id :
  (forall agent_id, checked_agent_id uuid name id = Ok agent_id -> agent_id = uuid name)
  /\ ((exists agent_id, checked_agent_id uuid name id = Ok agent_id)
      <-> id = None \/ id = Some (uuid name))
  /\ (forall e, checked_agent_id uuid name id = Raise e ->
        e = ValueError "Agent ID does not match").
Proof.
  unfold checked_agent_id. destruct id as [given|]; cbn.
  - destruct (decide (given <> uuid name)) as [Hne | Heq].
    + split; [discriminate |]. split; [| now intros e [= <-]].
      split; [intros [? ?]; discriminate | intros [? | [= ->]]; congruence].
    + apply dec_stable in Heq. subst given.
      split; [| split; [| discriminate]].
      * intros agent_id. destruct (uuid name); cbn; congruence.
      * split; [now right | eauto].
  - split; [congruence |]. split; [| discriminate].
    split; [now left | eauto].
Qed.

End AgentIdFacts.

Section DispatchWitnesses.

Import Registry Agents AgentCalls.

Lemma job_start_unknown_method_not_recorded_witness :
  exists w',
    job_start test_modules chatty_agent test_fields test_context test_server
      "method3" test_world
    = (Raise (KeyError "method3"), w')
    /\ responses (job w') = responses (job test_world) ++ [starting_response (job test_world)]
    /\ finished w' = finished test_world
    /\ invoked w' = invoked test_world.
Proof.
  apply (job_start_unknown_method_not_recorded test_modules chatty_agent test_fields
           test_context test_server "method3" test_world).
  - discriminate.
  - apply (bool_decide_eq_true_1 ("method3" ∉ ["method1"; "method2"])).
    vm_compute. reflexivity.
Defined.

Lemma job_start_unresolved_method_recorded_witness :
  exists e w',
    job_start test_modules (agent_calling "missing.function") test_fields test_context
      test_server "job_start" test_world
    = (Raise e, w')
    /\ responses (job w')
       = responses (job test_world)
         ++ [starting_response (job test_world); failed_response (job test_world) e]
    /\ finished w' = finished test_world
    /\ invoked w' = invoked test_world.
Proof.
  apply (job_start_unresolved_method_recorded test_modules
           (agent_calling "missing.function") test_fields test_context test_server
           "job_start" test_world (method_calling "missing.function" false)).
  all: reflexivity.
Defined.

Lemma job_start_wrong_return_recorded_witness :
  exists w',
    job_start more_modules (agent_calling "tools.table") test_fields test_context
      test_server "job_start" test_world
    = (Raise (TypeError ("Method " +:+ "table"
                         +:+ " must return a JobResponse object, got " +:+ "dict")), w')
    /\ responses (job w')
       = responses (job test_world)
         ++ [starting_response (job test_world);
             failed_response (job test_world)
               (TypeError ("Method " +:+ "table"
                           +:+ " must return a JobResponse object, got " +:+ "dict"))]
    /\ finished w' = finished test_world
    /\ invoked w'
       = invoked test_world
         ++ [(method (method_calling "tools.table" false),
              merged_params (method_calling "tools.table" false) test_fields
                test_context (agent_parameters (job test_world)))].
Proof.
  apply (job_start_wrong_return_recorded more_modules (agent_calling "tools.table")
           test_fields test_context test_server "job_start" test_world
           (method_calling "tools.table" false) "tools" "table" tools_module
           (fun _ => Returns (RetOther "dict")) "dict").
  all: reflexivity.
Defined.

Lemma job_start_keeps_earlier_responses_witness :
  exists extra,
    responses (job (snd (job_start test_modules (agent_calling "control.awaits")
                           test_fields test_context test_server "job_start" test_world)))
    = responses (job test_world) ++ starting_response (job test_world) :: extra
    /\ (finished (snd (job_start test_modules (agent_calling "control.awaits")
                         test_fields test_context test_server "job_start" test_world))
        = finished test_world -> (length extra <= 1)%nat)
    /\ (forall j,
          fst (job_start test_modules (agent_calling "control.awaits")
                 test_fields test_context test_server "job_start" test_world) = Ok j ->
          j = job (snd (job_start test_modules (agent_calling "control.awaits")
                          test_fields test_context test_server "job_start" test_world))).
Proof.
  apply (job_start_keeps_earlier_responses test_modules (agent_calling "control.awaits")
           test_fields test_context test_server "job_start" test_world).
  apply surjective_pairing.
Defined.

Lemma job_stop_returns_method_response_witness :
  is_async (Registry.job_stop (methods chatty_agent)) = true
  /\ exists w',
       job_stop test_modules chatty_agent ∅ test_world
       = (Ok (response_with COMPLETED), w')
       /\ invoked w'
          = invoked test_world
            ++ [(method (Registry.job_stop (methods chatty_agent)), ArgStatic <$> ∅)]
       /\ job w' = job test_world.
Proof.
  split; [reflexivity |].
  apply (job_stop_returns_method_response test_modules chatty_agent ∅ test_world
           "control" "completes" control_module
           (fun _ => Returns (RetJobResponse (response_with COMPLETED)))
           (response_with COMPLETED)).
  all: reflexivity.
Defined.

End DispatchWitnesses.

(** ** Cases: what every method keeps *)

Section CaseInvariants.

Import Engine Cases CaseViews.

Lemma cost_or_zero_alter h r i x :
  cost_or_zero (alter (set_index i) r h) x = cost_or_zero h x.
Proof.
  unfold cost_or_zero. destruct (decide (r = x)) as [-> | Hne].
  - rewrite lookup_alter_eq. now destruct (h !! x).
  - now rewrite lookup_alter_ne.
Qed.

(** Recording an update extends the sequence of costs that
    [calculated_cost] sums by one term, the cost of the update or zero
    when it has none: the terms recorded before are not touched by the
    call, even when the object is already in the log and gets a new
    index. *)
Theorem costs_after_append c w :
  costs (snd (run_append c w)) = costs w ++ [cost_or_zero (heap w) (appended c)].
Proof.
  destruct (run_append_spec c w) as (w' & Hrun & Hheap & Hupd).
  rewrite Hrun. cbn [snd]. unfold costs.
  rewrite Hupd, Hheap, map_app. cbn [map].
  rewrite cost_or_zero_alter. f_equal.
  apply map_ext. intros x. apply cost_or_zero_alter.
Qed.

Lemma resume_frame w :
  heap (snd (resume w)) = heap w /\ updates (self (snd (resume w))) = updates (self w).
Proof.
  destruct w as [h [i j n d st nd ups tc fd fa] acc lg clk].
  destruct st; split; reflexivity.
Qed.

(** One call on a world whose log refers to live objects only. *)
Lemma run_call_keeps c w :
  wf w ->
  (forall r, r ∈ call_refs c -> is_Some (heap w !! r)) ->
  updates (self w) `prefix_of` updates (self (snd (run_call c w)))
  /\ wf (snd (run_call c w))
  /\ (forall r u, heap w !! r = Some u ->
        exists u', heap (snd (run_call c w)) !! r = Some u' /\ same_but_index u u').
Proof.
  intros Hwf Hlive.
  assert (Happend : forall a, run_call c = run_append a ->
            (forall r, r ∈ call_refs c -> r = appended a) ->
            is_Some (heap w !! appended a) ->
            updates (self w) `prefix_of` updates (self (snd (run_call c w)))
            /\ wf (snd (run_call c w))
            /\ (forall r u, heap w !! r = Some u ->
                  exists u', heap (snd (run_call c w)) !! r = Some u'
                             /\ same_but_index u u')).
  { intros a -> _ Ha.
    destruct (run_append_spec a w) as (w' & Hrun & Hheap & Hupd).
    rewrite Hrun. cbn [snd]. split; [| split].
    - rewrite Hupd. now apply prefix_app_r.
    - intros r Hr. rewrite Hupd in Hr. rewrite Hheap.
      assert (Hlive' : is_Some (heap w !! r)).
      { apply elem_of_app in Hr as [Hr | Hr]; [now apply Hwf |].
        apply list_elem_of_singleton in Hr. now subst r. }
      destruct Hlive' as [u Hu]. destruct (decide (appended a = r)) as [<- | Hne].
      + rewrite lookup_alter_eq, Hu. eauto.
      + rewrite lookup_alter_ne by exact Hne. eauto.
    - intros r u Hu. rewrite Hheap. destruct (decide (appended a = r)) as [<- | Hne].
      + rewrite lookup_alter_eq, Hu. eexists. split; [reflexivity |].
        now repeat split.
      + rewrite lookup_alter_ne by exact Hne. exists u. split; [exact Hu |].
        now repeat split. }
  destruct c as [r | r message | | case_result final_cost].
  - apply (Happend (CallUpdate r)); [reflexivity | |].
    + intros x Hx. now apply list_elem_of_singleton in Hx.
    + apply Hlive. now apply list_elem_of_singleton.
  - apply (Happend (CallHumanInput r message)); [reflexivity | |].
    + intros x Hx. now apply list_elem_of_singleton in Hx.
    + apply Hlive. now apply list_elem_of_singleton.
  - cbn [run_call]. destruct (resume_frame w) as [Hheap Hupd].
    split; [now rewrite Hupd |]. split.
    + intros r Hr. rewrite Hupd in Hr. rewrite Hheap. now apply Hwf.
    + intros r u Hu. rewrite Hheap. exists u. split; [exact Hu | now repeat split].
  - cbn [run_call].
    destruct (decide (status (self w) = IN_PROGRESS)) as [Hst | Hst].
    + destruct (close_in_progress w case_result final_cost Hst)
        as (w' & Hrun & Hheap & Hself & _).
      rewrite Hrun. cbn [snd].
      assert (Hupd : updates (self w') = updates (self w)) by now rewrite Hself.
      assert (Hold : forall r, is_Some (heap w !! r) -> heap w' !! r = heap w !! r).
      { intros r Hr. rewrite Hheap. apply lookup_insert_ne. intros <-.
        apply elem_of_dom in Hr. exact (is_fresh (dom (heap w)) Hr). }
      split; [now rewrite Hupd |]. split.
      * intros r Hr. rewrite Hupd in Hr. rewrite Hold; now apply Hwf.
      * intros r u Hu. exists u. rewrite Hold by eauto.
        split; [exact Hu | now repeat split].
    + destruct (close_not_in_progress w case_result final_cost Hst)
        as (w' & Hrun & Hheap & Hupd & _).
      rewrite Hrun. cbn [snd]. split; [now rewrite Hupd |]. split.
      * intros r Hr. rewrite Hupd in Hr. rewrite Hheap. now apply Hwf.
      * intros r u Hu. rewrite Hheap. exists u. split; [exact Hu | now repeat split].
Qed.

(** Under any sequence of [update], [human_input], [resume] and [close]
    calls, failed ones included, the log of updates only grows at its
    end, every reference in it stays live, and no update object changes
    in anything but its index. *)
Theorem case_log_is_append_only calls : forall w,
  wf w ->
  (forall c r, c ∈ calls -> r ∈ call_refs c -> is_Some (heap w !! r)) ->
  updates (self w) `prefix_of` updates (self (after_calls calls w))
  /\ wf (after_calls calls w)
  /\ (forall r u, heap w !! r = Some u ->
        exists u', heap (after_calls calls w) !! r = Some u' /\ same_but_index u u').
Proof.
  induction calls as [|c calls IH]; intros w Hwf Hlive.
  - cbn [after_calls]. split; [reflexivity |]. split; [exact Hwf |].
    intros r u Hu. exists u. split; [exact Hu | now repeat split].
  - cbn [after_calls].
    destruct (run_call_keeps c w Hwf) as (Hprefix & Hwf1 & Hobj1).
    { intros r Hr. apply (Hlive c r); [apply list_elem_of_here | exact Hr]. }
    destruct (IH (snd (run_call c w)) Hwf1) as (Hprefix' & Hwf' & Hobj').
    { intros c' r Hc' Hr.
      destruct (Hlive c' r) as [u Hu]; [now apply list_elem_of_further | exact Hr |].
      destruct (Hobj1 r u Hu) as (u1 & Hu1 & _). eauto. }
    split; [now transitivity (updates (self (snd (run_call c w)))) |].
    split; [exact Hwf' |].
    intros r u Hu. destruct (Hobj1 r u Hu) as (u1 & Hu1 & Hsame1).
    destruct (Hobj' r u1 Hu1) as (u' & Hu' & Hsame').
    exists u'. split; [exact Hu' |].
    destruct Hsame1 as (? & ? & ? & ? & ?), Hsame' as (? & ? & ? & ? & ?).
    repeat split; congruence.
Qed.

End CaseInvariants.

(** ** Cases: references and registration info *)

Section CaseViewFacts.

Import Engine Cases CaseViews.

Lemma omap_lookup_live {A B} (f : A -> option B) (l : list A) :
  (forall x, x ∈ l -> is_Some (f x)) ->
  length (omap f l) = length l
  /\ forall i x, l !! i = Some x -> omap f l !! i = f x.
Proof.
  induction l as [|a l IH]; intros Hlive.
  - split; [reflexivity | intros i x Hi; discriminate Hi].
  - destruct (Hlive a) as [b Hb]; [apply list_elem_of_here |].
    destruct IH as [Hlen Hlookup].
    { intros x Hx. apply Hlive. now apply list_elem_of_further. }
    cbn [omap list_omap]. rewrite Hb. split; [cbn; now rewrite Hlen |].
    intros [|i] x Hi; cbn in Hi |- *.
    + now injection Hi as <-.
    + now apply Hlookup.
Qed.

(** After a run of [update] and [human_input] calls on distinct objects,
    on a case whose log was empty, the registration info lists one
    entry per call, in the order of the calls, and the entry at
    position [i] is the caller's update with the index [i + 1]. *)
Theorem registered_updates_are_numbered w calls w' :
  updates (self w) = [] ->
  NoDup (map appended calls) ->
  (forall r, r ∈ map appended calls -> is_Some (heap w !! r)) ->
  run_appends calls w = (Ok tt, w') ->
  length (updates_registration_info w') = length calls
  /\ forall i r u,
       map appended calls !! i = Some r -> heap w !! r = Some u ->
       updates_registration_info w' !! i
       = Some (update_registration_info (set_index (Z.of_nat i + 1) u)).
Proof.
  intros Hempty Hnodup Hlive Hrun.
  destruct (run_appends_spec calls w) as (w1 & Hrun1 & Hupd & _ & Hidx).
  rewrite Hrun1 in Hrun. injection Hrun as <-.
  rewrite Hempty in Hupd, Hidx. cbn [app length] in Hupd, Hidx.
  specialize (Hidx Hnodup).
  assert (Hlive1 : forall r, r ∈ updates (self w1) ->
            is_Some (update_registration_info <$> heap w1 !! r)).
  { intros r Hr. rewrite Hupd in Hr.
    apply list_elem_of_lookup in Hr as [i Hi].
    rewrite (Hidx i r Hi). destruct (Hlive r) as [u ->]; [| eauto].
    eapply list_elem_of_lookup_2, Hi. }
  destruct (omap_lookup_live _ _ Hlive1) as [Hlen Hlookup].
  unfold updates_registration_info. split.
  - now rewrite Hlen, Hupd, length_map.
  - intros i r u Hi Hu. rewrite (Hlookup i r) by now rewrite Hupd.
    now rewrite (Hidx i r Hi), Hu.
Qed.

(** [Case.start] never fails.  The case it leaves is in progress with an
    empty log; its id is the given one, or the generated one when none
    or an empty one was given; the Account is told once, of the case
    already in progress; the update objects are untouched. *)
Theorem start_leaves_case_in_progress job_id name description nodes case_id uuid w :
  exists w',
    start job_id name description nodes case_id uuid w = (Ok tt, w')
    /\ status (self w') = IN_PROGRESS
    /\ updates (self w') = []
    /\ id (self w') = match case_id with
                      | Some (String c rest) => String c rest
                      | Some EmptyString | None => uuid
                      end
    /\ Cases.job_id (self w') = job_id
    /\ account w' = account w ++ [SentStartCase (self w')]
    /\ heap w' = heap w.
Proof.
  destruct w as [h c acc lg clk]. eexists. split; [reflexivity |].
  cbn. repeat split. now destruct case_id as [[|a rest]|].
Qed.

(** Within one job, [case_ref] tells cases apart exactly as their ids
    do, and so does [uri] everywhere; across jobs [case_ref] can
    coincide for different cases, since ids may hold hyphens. *)
Theorem case_ref_identifies_case_in_job :
  (forall c1 c2, Cases.job_id c1 = Cases.job_id c2 ->
     (case_ref c1 = case_ref c2 <-> id c1 = id c2))
  /\ (forall c1 c2, uri c1 = uri c2 <-> id c1 = id c2)
  /\ (exists c1 c2,
        Cases.job_id c1 <> Cases.job_id c2 /\ id c1 <> id c2
        /\ case_ref c1 = case_ref c2).
Proof.
  split; [| split].
  - intros c1 c2 Hjob. unfold case_ref. rewrite Hjob. split.
    + intros Heq. apply String.app_inj in Heq. now apply String.app_inj in Heq.
    + now intros ->.
  - intros c1 c2. unfold uri. split.
    + intros Heq. now apply String.app_inj in Heq.
    + now intros ->.
  - exists {| id := "c"; Cases.job_id := "a-b"; case_name := "";
              description := ""; status := STOPPED; nodes := [];
              updates := []; total_cost := 0%float;
              final_delivery := None; finished_at := None |},
           {| id := "b-c"; Cases.job_id := "a"; case_name := "";
              description := ""; status := STOPPED; nodes := [];
              updates := []; total_cost := 0%float;
              final_delivery := None; finished_at := None |}.
    split; [discriminate | split; [discriminate | reflexivity]].
Qed.

End CaseViewFacts.

Section CaseViewWitnesses.

Import Engine Cases CaseViews.

Lemma registered_updates_are_numbered_witness :
  length (updates_registration_info
            (snd (run_appends [CallUpdate 0%nat; CallHumanInput 1%nat "yes"]
                    (started_world two_updates))))
  = length [CallUpdate 0%nat; CallHumanInput 1%nat "yes"]
  /\ forall i r u,
       map appended [CallUpdate 0%nat; CallHumanInput 1%nat "yes"] !! i = Some r ->
       heap (started_world two_updates) !! r = Some u ->
       updates_registration_info
         (snd (run_appends [CallUpdate 0%nat; CallHumanInput 1%nat "yes"]
                 (started_world two_updates))) !! i
       = Some (update_registration_info (set_index (Z.of_nat i + 1) u)).
Proof.
  apply (registered_updates_are_numbered (started_world two_updates)
           [CallUpdate 0%nat; CallHumanInput 1%nat "yes"]).
  - vm_compute. reflexivity.
  - apply (bool_decide_eq_true_1 (NoDup [0%nat; 1%nat])). vm_compute. reflexivity.
  - intros r Hr. cbn in Hr.
    apply elem_of_cons in Hr as [-> | Hr]; [vm_compute; eauto |].
    apply elem_of_cons in Hr as [-> | Hr]; [vm_compute; eauto |].
    now apply elem_of_nil in Hr.
  - vm_compute. reflexivity.
Defined.

Lemma case_log_is_append_only_witness :
  updates (self costed_world)
    `prefix_of` updates (self (after_calls [DoClose ok_result None; DoUpdate 0%nat; DoResume]
                                 costed_world))
  /\ wf (after_calls [DoClose ok_result None; DoUpdate 0%nat; DoResume] costed_world)
  /\ (forall r u, heap costed_world !! r = Some u ->
        exists u',
          heap (after_calls [DoClose ok_result None; DoUpdate 0%nat; DoResume]
                  costed_world) !! r = Some u'
          /\ same_but_index u u').
Proof.
  apply (case_log_is_append_only [DoClose ok_result None; DoUpdate 0%nat; DoResume]
           costed_world).
  - exact costed_world_wf.
  - intros c r Hc Hr.
    apply elem_of_cons in Hc as [-> | Hc]; [now apply elem_of_nil in Hr |].
    apply elem_of_cons in Hc as [-> | Hc].
    + apply list_elem_of_singleton in Hr as ->. vm_compute. eauto.
    + apply elem_of_cons in Hc as [-> | Hc]; [now apply elem_of_nil in Hr |].
      now apply elem_of_nil in Hc.
Defined.

End CaseViewWitnesses.

(** ** Remote parameter updates: the guard and the failures *)

Section ParameterGuardFacts.

Import Parameters.

(** With no encrypted text ([None] or the empty string), or on an agent
    without a parameter set, nothing is decrypted and nothing changes but
    the log, whatever the server is. *)
Theorem update_parameters_skipped server encrypted w :
  opt_str_truthy encrypted = false \/ parameters_setup w = None ->
  exists w',
    update_parameters_from_server server encrypted w = (Ok tt, w')
    /\ parameters_setup w' = parameters_setup w
    /\ server_encrypted_parameters w' = server_encrypted_parameters w
    /\ environ w' = environ w
    /\ forall other, update_parameters_from_server other encrypted w = (Ok tt, w').
Proof.
  intros Hskip. unfold update_parameters_from_server, bind, get. cbn [fst snd].
  assert (Hguard : opt_str_truthy encrypted
                   && bool_decide (is_Some (parameters_setup w)) = false).
  { destruct Hskip as [-> | Hnone]; [reflexivity |].
    rewrite Hnone. rewrite bool_decide_eq_false_2, andb_false_r; [reflexivity |].
    intros [? ?]. discriminate. }
  rewrite Hguard. eexists. split; [reflexivity |]. repeat split.
Qed.

(** When decryption or the decoding of the decrypted text fails, the
    error is raised as it is; the definitions and the environment are
    untouched, but the agent already remembers the encrypted text it was
    given. *)
Theorem update_parameters_undecodable server encrypted w e :
  opt_str_truthy encrypted = true ->
  is_Some (parameters_setup w) ->
  (decrypt server (default "" encrypted) = Raise e
   \/ exists decrypted,
        decrypt server (default "" encrypted) = Ok decrypted
        /\ json_loads server decrypted = Raise e) ->
  exists w',
    update_parameters_from_server server encrypted w = (Raise e, w')
    /\ parameters_setup w' = parameters_setup w
    /\ environ w' = environ w
    /\ server_encrypted_parameters w' = encrypted.
Proof.
  intros Htruthy Hsetup Hfail.
  unfold update_parameters_from_server, bind, get, modify. cbn [fst snd].
  rewrite Htruthy, bool_decide_eq_true_2 by exact Hsetup. cbn [andb].
  destruct Hfail as [Hdecrypt | (decrypted & Hdecrypt & Hloads)].
  - rewrite Hdecrypt. eexists. split; [reflexivity |]. repeat split.
  - rewrite Hdecrypt, Hloads. eexists. split; [reflexivity |]. repeat split.
Qed.

End ParameterGuardFacts.

(** ** Synchronising an agent with the server *)

Section AgentSyncFacts.

Import Parameters AgentSync.

(** Without a supervisor account, or when the Account does not answer
    with an [ApiSuccess], the agent is not returned and none of its
    attributes or parameters changes. *)
Theorem sync_without_answer server a :
  (supervisor_account server = None
   \/ exists account,
        supervisor_account server = Some account
        /\ forall key, exists message, get_agent_by account key = ApiFailure message) ->
  exists a',
    update_agent_from_server server a = (Ok false, a')
    /\ server_agent_id a' = server_agent_id a
    /\ server_agent_status a' = server_agent_status a
    /\ server_agent_onboarding_status a' = server_agent_onboarding_status a
    /\ parameters_setup (parameters a') = parameters_setup (parameters a)
    /\ server_encrypted_parameters (parameters a')
       = server_encrypted_parameters (parameters a)
    /\ environ (parameters a') = environ (parameters a).
Proof.
  intros [Hnone | (account & Hsome & Hfail)];
    unfold update_agent_from_server, bind, get; cbn [fst snd].
  - rewrite Hnone. eexists. split; [reflexivity |]. repeat split.
  - rewrite Hsome.
    destruct (opt_str_truthy (server_agent_id a)).
    + destruct (Hfail (ByAgentId (default "" (server_agent_id a)))) as [message ->].
      eexists. split; [reflexivity |]. repeat split.
    + destruct (Hfail (ByAgentSlug (slug a))) as [message ->].
      eexists. split; [reflexivity |]. repeat split.
Qed.

(** Once the agent has a server id, synchronisation never gives it
    another one: whatever the Account answers and however the call ends,
    the id is the same afterwards.  An answer that carries another id, or
    none, raises [ValueError] and changes nothing at all. *)
Theorem sync_keeps_server_id server a res a' :
  opt_str_truthy (server_agent_id a) = true ->
  update_agent_from_server server a = (res, a') ->
  server_agent_id a' = server_agent_id a
  /\ (forall account detail,
        supervisor_account server = Some account ->
        get_agent_by account (ByAgentId (default "" (server_agent_id a)))
        = ApiSuccess detail ->
        detail_get detail "id" <> server_agent_id a ->
        a' = a /\ exists message, res = Raise (ValueError message)).
Proof.
  intros Htruthy. unfold update_agent_from_server, bind, get. cbn [fst snd].
  rewrite Htruthy. cbn [andb].
  destruct (supervisor_account server) as [account|].
  2: { intros [= <- <-]. split; [reflexivity | intros ? ? [=]]. }
  destruct (get_agent_by account (ByAgentId (default "" (server_agent_id a))))
    as [detail | message] eqn:Hanswer.
  2: { cbn. intros [= <- <-]. split; [reflexivity |].
       intros ? ? [= <-] Hd. rewrite Hanswer in Hd. discriminate. }
  destruct (bool_decide (server_agent_id a = detail_get detail "id")) eqn:Hsame;
    cbn -[update_parameters_from_server].
  - apply bool_decide_eq_true_1 in Hsame.
    assert (Hno : forall account' detail',
               Some account = Some account' ->
               get_agent_by account' (ByAgentId (default "" (server_agent_id a)))
               = ApiSuccess detail' ->
               detail_get detail' "id" <> server_agent_id a -> False).
    { intros ? ? [= <-] Hd Hne. rewrite Hanswer in Hd.
      injection Hd as <-. congruence. }
    destruct (bool_decide (detail_get detail "onboarding_status" = Some "configured")).
    + unfold on_parameters at 1. cbn -[update_parameters_from_server].
      destruct (update_parameters_from_server _ _ _) as [[[]|e] p]; cbn;
        intros [= <- <-]; (split; [cbn; congruence |]);
        intros ? ? H1 H2 H3; destruct (Hno _ _ H1 H2 H3).
    + intros [= <- <-]. split; [cbn; congruence |].
      intros ? ? H1 H2 H3; destruct (Hno _ _ H1 H2 H3).
  - intros [= <- <-]. split; [reflexivity |].
    intros ? ? _ _ _. split; [reflexivity | eauto].
Qed.

(** The agent's parameters are touched only when the server reports the
    onboarding status ["configured"]: with any other status, or none,
    the definitions, the encrypted text and the environment are as
    before, however the call ends. *)
Theorem sync_updates_parameters_only_when_configured server a res a' :
  (forall account key detail,
     supervisor_account server = Some account ->
     get_agent_by account key = ApiSuccess detail ->
     detail_get detail "onboarding_status" <> Some "configured") ->
  update_agent_from_server server a = (res, a') ->
  parameters_setup (parameters a') = parameters_setup (parameters a)
  /\ server_encrypted_parameters (parameters a')
     = server_encrypted_parameters (parameters a)
  /\ environ (parameters a') = environ (parameters a).
Proof.
  intros Hstatus. unfold update_agent_from_server, bind, get. cbn [fst snd].
  destruct (supervisor_account server) as [account|] eqn:Haccount.
  2: { intros [= <- <-]. repeat split. }
  set (key := if opt_str_truthy (server_agent_id a)
              then ByAgentId (default "" (server_agent_id a))
              else ByAgentSlug (slug a)).
  assert (Hkey : (if opt_str_truthy (server_agent_id a)
                  then get_agent_by account (ByAgentId (default "" (server_agent_id a)))
                  else get_agent_by account (ByAgentSlug (slug a)))
                 = get_agent_by account key).
  { unfold key. now destruct (opt_str_truthy (server_agent_id a)). }
  rewrite Hkey.
  destruct (get_agent_by account key) as [detail | message] eqn:Hanswer.
  2: { cbn. intros [= <- <-]. repeat split. }
  specialize (Hstatus account key detail eq_refl Hanswer).
  destruct (opt_str_truthy (server_agent_id a)
            && negb (bool_decide (server_agent_id a = detail_get detail "id"))).
  { intros [= <- <-]. repeat split. }
  rewrite bool_decide_eq_false_2 by exact Hstatus. cbn.
  intros [= <- <-]. repeat split.
Qed.

End AgentSyncFacts.

Section AgentSyncWitnesses.

Import Parameters AgentSync.

Lemma update_parameters_skipped_witness :
  (opt_str_truthy (Some "") = false \/ parameters_setup test_world = None)
  /\ exists w',
       update_parameters_from_server (server_sending mixed_payload) (Some "") test_world
       = (Ok tt, w')
       /\ parameters_setup w' = parameters_setup test_world
       /\ server_encrypted_parameters w' = server_encrypted_parameters test_world
       /\ environ w' = environ test_world
       /\ forall other,
            update_parameters_from_server other (Some "") test_world = (Ok tt, w').
Proof.
  split; [left; reflexivity |].
  apply (update_parameters_skipped (server_sending mixed_payload) (Some "") test_world).
  left. reflexivity.
Defined.

Lemma update_parameters_undecodable_witness :
  exists w',
    update_parameters_from_server undecodable_server (Some "encrypted") test_world
    = (Raise (ValueError "Expecting value"), w')
    /\ parameters_setup w' = parameters_setup test_world
    /\ environ w' = environ test_world
    /\ server_encrypted_parameters w' = Some "encrypted".
Proof.
  apply (update_parameters_undecodable undecodable_server (Some "encrypted")
           test_world (ValueError "Expecting value")).
  - reflexivity.
  - exists test_definitions. reflexivity.
  - right. exists "not json". split; reflexivity.
Defined.

Lemma sync_without_answer_witness :
  exists a',
    update_agent_from_server (host_with (Some unreachable_account)) known_agent_state
    = (Ok false, a')
    /\ server_agent_id a' = server_agent_id known_agent_state
    /\ server_agent_status a' = server_agent_status known_agent_state
    /\ server_agent_onboarding_status a'
       = server_agent_onboarding_status known_agent_state
    /\ parameters_setup (parameters a') = parameters_setup (parameters known_agent_state)
    /\ server_encrypted_parameters (parameters a')
       = server_encrypted_parameters (parameters known_agent_state)
    /\ environ (parameters a') = environ (parameters known_agent_state).
Proof.
  apply (sync_without_answer (host_with (Some unreachable_account)) known_agent_state).
  right. exists unreachable_account. split; [reflexivity |].
  intros key. exists "unreachable". reflexivity.
Defined.

Lemma sync_keeps_server_id_witness :
  server_agent_id known_agent_state = server_agent_id known_agent_state
  /\ (forall account detail,
        supervisor_account (host_with (Some (account_knowing other_detail)))
        = Some account ->
        get_agent_by account
          (ByAgentId (default "" (server_agent_id known_agent_state)))
        = ApiSuccess detail ->
        detail_get detail "id" <> server_agent_id known_agent_state ->
        known_agent_state = known_agent_state
        /\ exists message,
             Raise (ValueError "Agent ID mismatch: agent-1 != agent-2")
             = Raise (A := bool) (ValueError message)).
Proof.
  apply (sync_keeps_server_id (host_with (Some (account_knowing other_detail)))
           known_agent_state
           (Raise (ValueError "Agent ID mismatch: agent-1 != agent-2"))
           known_agent_state).
  - reflexivity.
  - vm_compute. reflexivity.
Defined.

Lemma sync_updates_parameters_only_when_configured_witness :
  parameters_setup
    (parameters
       (snd (update_agent_from_server (host_with (Some (account_knowing pending_detail)))
               new_agent_state)))
  = parameters_setup (parameters new_agent_state)
  /\ server_encrypted_parameters
       (parameters
          (snd (update_agent_from_server
                  (host_with (Some (account_knowing pending_detail))) new_agent_state)))
     = server_encrypted_parameters (parameters new_agent_state)
  /\ environ
       (parameters
          (snd (update_agent_from_server
                  (host_with (Some (account_knowing pending_detail))) new_agent_state)))
     = environ (parameters new_agent_state).
Proof.
  apply (sync_updates_parameters_only_when_configured
           (host_with (Some (account_knowing pending_detail))) new_agent_state
           (Ok true)).
  - intros account key detail [= <-] [= <-]. vm_compute. discriminate.
  - vm_compute. reflexivity.
Defined.

End AgentSyncWitnesses.

(** ** The job listings *)

Section RouteFacts.

Import Agents Routes.

Variable status_value : EntityStatus -> string.

(** With the bounds the routes accept, a slice is a [take] of a [drop]. *)
Lemma py_slice_nonneg {A} (xs : list A) (start stop : Z) :
  0 <= start -> start <= stop ->
  py_slice xs start stop = take (Z.to_nat (stop - start)) (drop (Z.to_nat start) xs).
Proof.
  intros Hstart Hstop. unfold py_slice, slice_index.
  destruct (Z.ltb_spec start 0) as [|_]; [lia |].
  destruct (Z.ltb_spec stop 0) as [|_]; [lia |].
  destruct (Z_le_gt_dec (Z.of_nat (length xs)) start) as [Hout | Hin].
  - rewrite !drop_ge by lia. now rewrite !take_nil.
  - rewrite (Z.min_l start) by lia.
    destruct (Z_le_gt_dec stop (Z.of_nat (length xs))) as [Hfit | Hover].
    + now rewrite (Z.min_l stop) by lia.
    + rewrite (Z.min_r stop) by lia.
      rewrite !take_ge; [reflexivity | |]; rewrite length_drop; lia.
Qed.

Lemma take_add {A} (xs : list A) (n m : nat) :
  take (n + m) xs = take n xs ++ take m (drop n xs).
Proof.
  revert xs. induction n as [|n IH]; intros [|x xs]; cbn;
    rewrite ?take_nil, ?drop_nil; try reflexivity.
  now rewrite IH.
Qed.

(** Consecutive pages tile the listing: a page of [l1 + l2] jobs is
    the page of [l1] jobs followed by the page of [l2] jobs that starts
    where the first one ends, with or without a status filter. *)
Theorem agent_jobs_pages_tile jobs skip l1 l2 st :
  0 <= skip -> 0 <= l1 -> 0 <= l2 ->
  get_agent_jobs status_value jobs skip (l1 + l2) st
  = get_agent_jobs status_value jobs skip l1 st
    ++ get_agent_jobs status_value jobs (skip + l1) l2 st.
Proof.
  intros Hskip H1 H2. unfold get_agent_jobs.
  rewrite !py_slice_nonneg by lia.
  rewrite <- fmap_app. f_equal.
  replace (Z.to_nat (skip + (l1 + l2) - skip)) with (Z.to_nat l1 + Z.to_nat l2)%nat by lia.
  replace (Z.to_nat (skip + l1 - skip)) with (Z.to_nat l1) by lia.
  replace (Z.to_nat (skip + l1 + l2 - (skip + l1))) with (Z.to_nat l2) by lia.
  replace (Z.to_nat (skip + l1)) with (Z.to_nat skip + Z.to_nat l1)%nat by lia.
  rewrite take_add, drop_drop. reflexivity.
Qed.

(** A page holds the jobs that are left after [skip], at most
    [limit] of them; it lists jobs of the agent in their order, each
    once at most; and with a status filter, every listed job has that
    status. *)
Theorem agent_jobs_page_shape jobs skip limit st :
  0 <= skip -> 0 <= limit ->
  Z.of_nat (length (get_agent_jobs status_value jobs skip limit st))
  = Z.max 0 (Z.min limit (Z.of_nat (length (filter_status st jobs)) - skip))
  /\ get_agent_jobs status_value jobs skip limit st
     `sublist_of` (job_response status_value <$> jobs)
  /\ forall s r,
       st = Some s ->
       r ∈ get_agent_jobs status_value jobs skip limit st ->
       Agents.status r = s.
Proof.
  intros Hskip Hlimit. unfold get_agent_jobs.
  rewrite py_slice_nonneg by lia.
  replace (Z.to_nat (skip + limit - skip)) with (Z.to_nat limit) by lia.
  assert (Hsub : take (Z.to_nat limit) (drop (Z.to_nat skip) (filter_status st jobs))
                 `sublist_of` filter_status st jobs).
  { etransitivity; [apply sublist_take | apply sublist_drop]. }
  split; [| split].
  - rewrite length_fmap, length_take, length_drop. lia.
  - apply fmap_sublist. etransitivity; [exact Hsub |].
    destruct st; [apply sublist_filter | reflexivity].
  - intros s r -> Hr.
    apply list_elem_of_fmap in Hr as (job & -> & Hjob).
    eapply elem_of_sublist in Hjob; [| exact Hsub].
    cbn in Hjob. apply list_elem_of_filter in Hjob as [Hstatus _]. exact Hstatus.
Qed.

(** The listing of all jobs gives, for each agent, exactly the
    page that the agent's own listing gives, and leaves out the agents
    whose page is empty. *)
Theorem all_jobs_agree_with_agent_jobs jobs_by_agent skip limit st agent_name page :
  get_all_jobs status_value jobs_by_agent skip limit st !! agent_name = Some page
  <-> page <> []
      /\ exists jobs,
           jobs_by_agent !! agent_name = Some jobs
           /\ page = get_agent_jobs status_value jobs skip limit st.
Proof.
  unfold get_all_jobs, get_agent_jobs. rewrite lookup_omap.
  destruct (jobs_by_agent !! agent_name) as [jobs|]; cbn.
  - destruct (py_slice (filter_status st jobs) skip (skip + limit))
      as [|job rest] eqn:Hpage; cbn.
    + split; [discriminate |].
      intros [Hne (? & [= <-] & ->)]. rewrite Hpage in Hne. now destruct Hne.
    + split.
      * intros [= <-]. split; [discriminate |].
        exists jobs. now rewrite Hpage.
      * intros [_ (? & [= <-] & ->)]. now rewrite Hpage.
  - split; [discriminate |]. intros [_ (? & [=] & _)].
Qed.

End RouteFacts.

Section RouteWitnesses.

Import Agents Routes.

Lemma agent_jobs_pages_tile_witness :
  get_agent_jobs (fun _ => "status") listed_jobs 1 (1 + 1) (Some COMPLETED)
  = get_agent_jobs (fun _ => "status") listed_jobs 1 1 (Some COMPLETED)
    ++ get_agent_jobs (fun _ => "status") listed_jobs (1 + 1) 1 (Some COMPLETED).
Proof.
  apply (agent_jobs_pages_tile (fun _ => "status") listed_jobs 1 1 1 (Some COMPLETED));
    lia.
Defined.

Lemma agent_jobs_page_shape_witness :
  Z.of_nat (length (get_agent_jobs (fun _ => "status") listed_jobs 1 100 (Some COMPLETED)))
  = Z.max 0 (Z.min 100
               (Z.of_nat (length (filter_status (Some COMPLETED) listed_jobs)) - 1))
  /\ get_agent_jobs (fun _ => "status") listed_jobs 1 100 (Some COMPLETED)
     `sublist_of` (job_response (fun _ => "status") <$> listed_jobs)
  /\ forall s r,
       Some COMPLETED = Some s ->
       r ∈ get_agent_jobs (fun _ => "status") listed_jobs 1 100 (Some COMPLETED) ->
       Agents.status r = s.
Proof.
  apply (agent_jobs_page_shape (fun _ => "status") listed_jobs 1 100 (Some COMPLETED));
    lia.
Defined.

End RouteWitnesses.
